(** * FastBERT adaptive-depth inference: the permutation of early-exit outputs

    A shallow embedding of [uf/application/fast_bert.py]: the two nested
    helpers [_uncertainty] and [_permutate] of
    [FastBERTClassifier._get_predict_outputs] (lines 241-277) and of
    [FastBERTClassifier._get_score_outputs] (lines 308-344); and, around
    them, the settings that [predict], [score] and [export] store, the batch
    size that [convert] leaves, and the probabilities that
    [_get_score_outputs] assembles from the batches.

    - Python integers are [Z] where their sign matters ([max_loop], head
      indices) and [nat] where they index or count.
    - Python exceptions are the [Raise] branch of [result]; the loops thread
      their state through it.
    - [batch_probs] is a two-dimensional array, here the list of its rows;
      [probs[r] = batch_probs[i]] stores row [i] at row [r].
    - Floating-point numbers are kept behind the interface [Float], and the
      results on the loops hold for every implementation of it.  Runs on
      concrete streams are evaluated with exact reals, on vectors whose
      uncertainty is far from the threshold. *)

From Stdlib Require Import Reals Lra ZArith List Permutation Sorted.
From stdpp Require Import base list.

(** ** Exceptions *)

Inductive exn := IndexError | AssertionError.

Inductive result (A : Type) :=
| Ok (a : A)
| Raise (e : exn).
Arguments Ok {A} a.
Arguments Raise {A} e.

#[global] Instance result_ret : MRet result := @Ok.
#[global] Instance result_bind : MBind result :=
  fun A B f m => match m with Ok a => f a | Raise e => Raise e end.

(** [l[i]] for a non-negative index: [IndexError] out of range. *)
Definition index {A} (l : list A) (i : nat) : result A :=
  match l !! i with Some x => Ok x | None => Raise IndexError end.

(** [l[i] = x] on a numpy array for a non-negative index. *)
Definition store {A} (l : list A) (i : nat) (x : A) : result (list A) :=
  if decide (i < length l) then Ok (<[i:=x]> l) else Raise IndexError.

(** ** Floating-point interface *)

Class Float (F : Type) := {
  f_zero : F;                (* 0.0, the fill value of np.zeros *)
  f_one : F;                 (* 1 *)
  f_tiny : F;                (* the literal 1e-20 *)
  f_of_int : Z -> F;
  f_add : F -> F -> F;
  f_sub : F -> F -> F;
  f_mul : F -> F -> F;
  f_div : F -> F -> F;
  f_log : F -> F;            (* np.log *)
  f_lt : F -> F -> bool }.

(** ** The attributes of the classifier that the two helpers read

    [label_size] is positive: the constructor asserts it, and it is a
    dimension of [np.zeros]. *)

Record config (F : Type) := Config {
  label_size : positive;
  num_hidden_layers : nat;       (* self.bert_config.num_hidden_layers *)
  _ignore_cls : list Z;
  _speed : F;
  _gpu_ids : list nat;
  batch_size : nat }.
Arguments Config {F}.
Arguments label_size {F}.
Arguments num_hidden_layers {F}.
Arguments _ignore_cls {F}.
Arguments _speed {F}.
Arguments _gpu_ids {F}.
Arguments batch_size {F}.

(** The locals that [_permutate] computes before its loops. *)

Definition n_device {F} (cfg : config F) : nat :=
  Nat.max (length (_gpu_ids cfg)) 1.

Definition d_batch_size {F} (cfg : config F) : nat :=
  batch_size cfg / n_device cfg.

Definition max_loop {F} (cfg : config F) : Z :=
  (Z.of_nat (num_hidden_layers cfg) + 1 - Z.of_nat (length (_ignore_cls cfg)))%Z.

Definition keep_cls {F} (cfg : config F) : list Z :=
  filter (fun cls_idx => cls_idx ∉ _ignore_cls cfg)
         (map Z.of_nat (seq 0 (num_hidden_layers cfg + 1))).

(** The two result tables. *)
Record tables (F : Type) := Tables {
  probs : list (list F);
  sources : list Z }.
Arguments Tables {F}.
Arguments probs {F}.
Arguments sources {F}.

Definition zeros {F} `{Float F} (cfg : config F) : tables F :=
  Tables (repeat (repeat f_zero (Pos.to_nat (label_size cfg))) (batch_size cfg))
         (repeat 0%Z (batch_size cfg)).

(** ** [_get_predict_outputs] *)

Module GetPredictOutputs.
Section WithFloat.
Context {F : Type} `{Float F}.

Definition _uncertainty (cfg : config F) (prob : F) : F :=
  let prob :=
    if f_lt prob f_tiny || f_lt (f_sub f_one prob) f_tiny then f_tiny else prob in
  f_div (f_add (f_mul prob (f_log prob))
               (f_mul (f_sub f_one prob) (f_log (f_sub f_one prob))))
        (f_log (f_div f_one (f_of_int (Z.pos (label_size cfg))))).

(** The loop state: the tables, the stream counter [i], [next_unfinished]. *)
Definition state : Type := tables F * nat * list nat.

(** One turn of [for k in range(len(unfinished))], at [pos = unfinished[k]]
    (lines 267-274, resp. 334-341). *)
Definition visit (cfg : config F) (batch_probs : list (list F))
  (loop : nat) (source : Z) (pos : nat) (st : state) : result state :=
  let '(tb, i, next_unfinished) := st in
  row ← index batch_probs i;
  prob ← index row 0;
  if f_lt (_uncertainty cfg prob) (_speed cfg) || bool_decide (Z.of_nat loop = (max_loop cfg - 1)%Z)
  then
    probs' ← store (probs tb) pos row;
    sources' ← store (sources tb) pos source;
    Ok (Tables probs' sources', S i, next_unfinished)
  else
    Ok (tb, S i, next_unfinished ++ [pos]).

Fixpoint inner (cfg : config F) (batch_probs : list (list F))
  (loop : nat) (source : Z) (unfinished : list nat) (st : state) : result state :=
  match unfinished with
  | [] => Ok st
  | pos :: rest =>
      st' ← visit cfg batch_probs loop source pos st;
      inner cfg batch_probs loop source rest st'
  end.

(** [for loop in range(max_loop)], from iteration [loop] with [n] to go;
    [unfinished = next_unfinished] is the argument of the next turn. *)
Fixpoint loops (cfg : config F) (batch_probs : list (list F))
  (n loop : nat) (tb : tables F) (i : nat) (unfinished : list nat) : result state :=
  match n with
  | O => Ok (tb, i, unfinished)
  | S n' =>
      source ← index (keep_cls cfg) loop;
      '(tb', i', next_unfinished) ← inner cfg batch_probs loop source unfinished (tb, i, []);
      loops cfg batch_probs n' (S loop) tb' i' next_unfinished
  end.

(** The body of [for d in range(n_device)]: the shard starts at
    [unfinished = [k + i for k in range(d_batch_size)]]. *)
Definition shard (cfg : config F) (batch_probs : list (list F))
  (tb : tables F) (i : nat) : result state :=
  let unfinished := map (fun k => k + i) (seq 0 (d_batch_size cfg)) in
  loops cfg batch_probs (Z.to_nat (max_loop cfg)) 0 tb i unfinished.

Fixpoint devices (cfg : config F) (batch_probs : list (list F))
  (n : nat) (tb : tables F) (i : nat) : result (tables F * nat) :=
  match n with
  | O => Ok (tb, i)
  | S n' =>
      '(tb', i', _) ← shard cfg batch_probs tb i;
      devices cfg batch_probs n' tb' i'
  end.

Definition _permutate (cfg : config F) (batch_probs : list (list F))
  : result (list (list F) * list Z) :=
  '(tb, i) ← devices cfg batch_probs (n_device cfg) (zeros cfg) 0;
  if decide (i = length batch_probs) then Ok (probs tb, sources tb)
  else Raise AssertionError.

End WithFloat.
End GetPredictOutputs.

(** ** [_get_score_outputs]

    The scoring path carries its own copies of the two helpers. *)

Module GetScoreOutputs.
Section WithFloat.
Context {F : Type} `{Float F}.

Definition _uncertainty (cfg : config F) (prob : F) : F :=
  let prob :=
    if f_lt prob f_tiny || f_lt (f_sub f_one prob) f_tiny then f_tiny else prob in
  f_div (f_add (f_mul prob (f_log prob))
               (f_mul (f_sub f_one prob) (f_log (f_sub f_one prob))))
        (f_log (f_div f_one (f_of_int (Z.pos (label_size cfg))))).

(** The loop state: the tables, the stream counter [i], [next_unfinished]. *)
Definition state : Type := tables F * nat * list nat.

(** One turn of [for k in range(len(unfinished))], at [pos = unfinished[k]]
    (lines 267-274, resp. 334-341). *)
Definition visit (cfg : config F) (batch_probs : list (list F))
  (loop : nat) (source : Z) (pos : nat) (st : state) : result state :=
  let '(tb, i, next_unfinished) := st in
  row ← index batch_probs i;
  prob ← index row 0;
  if f_lt (_uncertainty cfg prob) (_speed cfg) || bool_decide (Z.of_nat loop = (max_loop cfg - 1)%Z)
  then
    probs' ← store (probs tb) pos row;
    sources' ← store (sources tb) pos source;
    Ok (Tables probs' sources', S i, next_unfinished)
  else
    Ok (tb, S i, next_unfinished ++ [pos]).

Fixpoint inner (cfg : config F) (batch_probs : list (list F))
  (loop : nat) (source : Z) (unfinished : list nat) (st : state) : result state :=
  match unfinished with
  | [] => Ok st
  | pos :: rest =>
      st' ← visit cfg batch_probs loop source pos st;
      inner cfg batch_probs loop source rest st'
  end.

(** [for loop in range(max_loop)], from iteration [loop] with [n] to go;
    [unfinished = next_unfinished] is the argument of the next turn. *)
Fixpoint loops (cfg : config F) (batch_probs : list (list F))
  (n loop : nat) (tb : tables F) (i : nat) (unfinished : list nat) : result state :=
  match n with
  | O => Ok (tb, i, unfinished)
  | S n' =>
      source ← index (keep_cls cfg) loop;
      '(tb', i', next_unfinished) ← inner cfg batch_probs loop source unfinished (tb, i, []);
      loops cfg batch_probs n' (S loop) tb' i' next_unfinished
  end.

(** The body of [for d in range(n_device)]: the shard starts at
    [unfinished = [k + i for k in range(d_batch_size)]]. *)
Definition shard (cfg : config F) (batch_probs : list (list F))
  (tb : tables F) (i : nat) : result state :=
  let unfinished := map (fun k => k + i) (seq 0 (d_batch_size cfg)) in
  loops cfg batch_probs (Z.to_nat (max_loop cfg)) 0 tb i unfinished.

Fixpoint devices (cfg : config F) (batch_probs : list (list F))
  (n : nat) (tb : tables F) (i : nat) : result (tables F * nat) :=
  match n with
  | O => Ok (tb, i)
  | S n' =>
      '(tb', i', _) ← shard cfg batch_probs tb i;
      devices cfg batch_probs n' tb' i'
  end.

Definition _permutate (cfg : config F) (batch_probs : list (list F))
  : result (list (list F) * list Z) :=
  '(tb, i) ← devices cfg batch_probs (n_device cfg) (zeros cfg) 0;
  if decide (i = length batch_probs) then Ok (probs tb, sources tb)
  else Raise AssertionError.

End WithFloat.
End GetScoreOutputs.

(** ** Instrumented run

    The same loops as [GetPredictOutputs], returning in addition the list of
    the visits made, in order.  The events are ghost data: nothing in the
    run depends on them, and erasing them gives back the plain run
    (lemma [permutate_erase] below). *)

Record event := Event {
  ev_pos : nat;          (* unfinished[k], the row of the tables *)
  ev_idx : nat;          (* i, the position in the flat stream *)
  ev_loop : nat;         (* the cascade iteration *)
  ev_resolved : bool }.  (* the branch taken: written, or carried over *)

Section Traced.
Context {F : Type} `{Float F}.

Definition traced_visit (cfg : config F) (batch_probs : list (list F))
  (loop : nat) (source : Z) (pos : nat) (st : GetPredictOutputs.state)
  : result (GetPredictOutputs.state * event) :=
  let '(tb, i, next_unfinished) := st in
  row ← index batch_probs i;
  prob ← index row 0;
  if f_lt (GetPredictOutputs._uncertainty cfg prob) (_speed cfg)
     || bool_decide (Z.of_nat loop = (max_loop cfg - 1)%Z)
  then
    probs' ← store (probs tb) pos row;
    sources' ← store (sources tb) pos source;
    Ok (Tables probs' sources', S i, next_unfinished, Event pos i loop true)
  else
    Ok (tb, S i, next_unfinished ++ [pos], Event pos i loop false).

Fixpoint traced_inner (cfg : config F) (batch_probs : list (list F))
  (loop : nat) (source : Z) (unfinished : list nat) (st : GetPredictOutputs.state)
  : result (GetPredictOutputs.state * list event) :=
  match unfinished with
  | [] => Ok (st, [])
  | pos :: rest =>
      '(st', ev) ← traced_visit cfg batch_probs loop source pos st;
      '(st'', evs) ← traced_inner cfg batch_probs loop source rest st';
      Ok (st'', ev :: evs)
  end.

Fixpoint traced_loops (cfg : config F) (batch_probs : list (list F))
  (n loop : nat) (tb : tables F) (i : nat) (unfinished : list nat)
  : result (GetPredictOutputs.state * list event) :=
  match n with
  | O => Ok (tb, i, unfinished, [])
  | S n' =>
      source ← index (keep_cls cfg) loop;
      '(tb', i', next_unfinished, evs) ←
        traced_inner cfg batch_probs loop source unfinished (tb, i, []);
      '(st, evs') ← traced_loops cfg batch_probs n' (S loop) tb' i' next_unfinished;
      Ok (st, evs ++ evs')
  end.

Definition traced_shard (cfg : config F) (batch_probs : list (list F))
  (tb : tables F) (i : nat) : result (GetPredictOutputs.state * list event) :=
  let unfinished := map (fun k => k + i) (seq 0 (d_batch_size cfg)) in
  traced_loops cfg batch_probs (Z.to_nat (max_loop cfg)) 0 tb i unfinished.

Fixpoint traced_devices (cfg : config F) (batch_probs : list (list F))
  (n : nat) (tb : tables F) (i : nat) : result (tables F * nat * list event) :=
  match n with
  | O => Ok (tb, i, [])
  | S n' =>
      '(tb', i', _, evs) ← traced_shard cfg batch_probs tb i;
      '(tb'', i'', evs') ← traced_devices cfg batch_probs n' tb' i';
      Ok (tb'', i'', evs ++ evs')
  end.

Definition traced_permutate (cfg : config F) (batch_probs : list (list F))
  : result (list (list F) * list Z * list event) :=
  '(tb, i, evs) ← traced_devices cfg batch_probs (n_device cfg) (zeros cfg) 0;
  if decide (i = length batch_probs) then Ok (probs tb, sources tb, evs)
  else Raise AssertionError.

End Traced.

(** ** Reading a trace *)

(** Forgetting the events of an instrumented result. *)
Definition erase {A B} (r : result (A * B)) : result A :=
  match r with Ok (a, _) => Ok a | Raise e => Raise e end.

(** The only exception a computation may raise is [IndexError]. *)
Definition raises_index {A} (r : result A) : Prop :=
  ∀ e, r = Raise e → e = IndexError.

Section Replay.
Context {F : Type} `{Float F}.

(** The test of the [if] in the inner loop. *)
Definition resolves (cfg : config F) (prob : F) (loop : nat) : bool :=
  f_lt (GetPredictOutputs._uncertainty cfg prob) (_speed cfg)
  || bool_decide (Z.of_nat loop = (max_loop cfg - 1)%Z).

(** The effect of one visit on the tables, read off its event. *)
Definition apply_event (cfg : config F) (batch_probs : list (list F))
  (tb : tables F) (ev : event) : tables F :=
  if ev_resolved ev then
    Tables (<[ev_pos ev := default [] (batch_probs !! ev_idx ev)]> (probs tb))
           (<[ev_pos ev := default 0%Z (keep_cls cfg !! ev_loop ev)]> (sources tb))
  else tb.

Definition replay (cfg : config F) (batch_probs : list (list F))
  (evs : list event) (tb : tables F) : tables F :=
  foldl (apply_event cfg batch_probs) tb evs.

(** Both tables have [rows] rows. *)
Definition table_rows (tb : tables F) (rows : nat) : Prop :=
  length (probs tb) = rows ∧ length (sources tb) = rows.

(** An event is sound for tables of [rows] rows: it consumed an existing
    vector, took the branch the test selects, names an existing head, and if
    it wrote, wrote inside the tables. *)
Definition ev_ok (cfg : config F) (batch_probs : list (list F)) (rows : nat)
  (ev : event) : Prop :=
  (∃ row prob, batch_probs !! ev_idx ev = Some row ∧ row !! 0 = Some prob ∧
               ev_resolved ev = resolves cfg prob (ev_loop ev)) ∧
  is_Some (keep_cls cfg !! ev_loop ev) ∧
  (ev_resolved ev = true → ev_pos ev < rows).

(** The vectors [i .. i+m-1] of the stream have a first component on which
    the test of iteration [loop] gives [b]. *)
Definition block_decides (cfg : config F) (bp : list (list F))
  (loop i m : nat) (b : bool) : Prop :=
  ∀ k, k < m →
    ∃ row prob, bp !! (i + k) = Some row ∧ row !! 0 = Some prob ∧
                resolves cfg prob loop = b.

(** The events of an iteration that resolves rows [p .. p+m-1] on the
    vectors [i .. i+m-1]. *)
Definition block_events (loop p i m : nat) : list event :=
  map (fun k => Event (p + k) (i + k) loop true) (seq 0 m).

(** The rows written, in the order of writing, and the rows carried over. *)
Definition written (evs : list event) : list nat :=
  map ev_pos (filter (fun ev => ev_resolved ev = true) evs).

Definition carried (evs : list event) : list nat :=
  map ev_pos (filter (fun ev => ev_resolved ev = false) evs).

End Replay.

(** ** Exact real arithmetic as an instance of the float interface

    Used to run the loops on concrete streams.  It has no rounding, so it
    decides the test [_uncertainty(...) < self._speed] as the code does only
    where the two sides are well apart, as they are on the streams below
    (scores 1 and about 0.63 against 0.1, and a score below 1e-17 against
    0.1).  On the arguments that [_uncertainty] passes to [np.log] after its
    guard the logarithm is taken of positive numbers only, where [ln] is the
    natural logarithm. *)

Definition Rltb (x y : R) : bool := if Rlt_dec x y then true else false.

#[global] Instance real_float : Float R := {|
  f_zero := 0%R; f_one := 1%R; f_tiny := 1e-20%R;
  f_of_int := IZR;
  f_add := Rplus; f_sub := Rminus; f_mul := Rmult; f_div := Rdiv;
  f_log := ln;
  f_lt := Rltb |}.

(** [_uncertainty] at [label_size = C], in this instance. *)
Definition uncertainty (C : positive) (p : R) : R :=
  GetPredictOutputs._uncertainty (Config C 0 [] 0%R [] 0) p.

(** The numerator of the formula. *)
Definition entropy (q : R) : R := (q * ln q + (1 - q) * ln (1 - q))%R.

(** The largest component of a probability vector. *)
Definition top_prob (row : list R) : R := foldr Rmax 0%R row.

(** ** Concrete configurations and streams used below *)

(** Two heads kept out of three, threshold 0.1, binary labels. *)
Definition cfg_two_gpus : config R := Config 2 2 [0%Z] 0.1%R [0; 1] 2.
Definition cfg_one_gpu : config R := Config 2 2 [0%Z] 0.1%R [0] 1.
Definition cfg_all_ignored : config R := Config 2 1 [0%Z; 1%Z] 0.1%R [0] 2.
Definition cfg_two_ignored : config R := Config 2 2 [0%Z; 1%Z] 0.1%R [0] 1.
Definition cfg_three_labels : config R := Config 3 2 [0%Z] 0.1%R [0] 1.

(** A stream of [n] undecided binary vectors. *)
Definition undecided (n : nat) : list (list R) := repeat [0.5%R; 0.5%R] n.

(** ** The code around the two helpers *)

(** *** The settings of an inference call

    [predict] (lines 88-96), [score] (120-128) and [export] (150-158) start
    alike: the converted ignore list and the speed are compared with the
    stored ones, and a difference stores the new value and clears
    [_graph_mode].  [convert_ignore_cls] is applied by the caller; [ne] is
    the test [!=] on floats; [M] is whatever a built graph mode is. *)

Record classifier (F M : Type) := Classifier {
  attrs : config F;
  _graph_mode : option M }.
Arguments Classifier {F M}.
Arguments attrs {F M}.
Arguments _graph_mode {F M}.

Definition with_ignore_cls {F} (cfg : config F) (ignore_cls : list Z) : config F :=
  Config (label_size cfg) (num_hidden_layers cfg) ignore_cls (_speed cfg)
         (_gpu_ids cfg) (batch_size cfg).

Definition with_speed {F} (cfg : config F) (speed : F) : config F :=
  Config (label_size cfg) (num_hidden_layers cfg) (_ignore_cls cfg) speed
         (_gpu_ids cfg) (batch_size cfg).

Definition with_batch_size {F} (cfg : config F) (n : nat) : config F :=
  Config (label_size cfg) (num_hidden_layers cfg) (_ignore_cls cfg) (_speed cfg)
         (_gpu_ids cfg) n.

Definition set_inference_settings {F M} (ne : F → F → bool)
  (ignore_cls : list Z) (speed : F) (self : classifier F M) : classifier F M :=
  let self :=
    if bool_decide (ignore_cls ≠ _ignore_cls (attrs self))
    then Classifier (with_ignore_cls (attrs self) ignore_cls) None
    else self in
  if ne speed (_speed (attrs self))
  then Classifier (with_speed (attrs self) speed) None
  else self.

(** *** The batch size after [convert] (lines 176-186)

    [X] and [X_tokenized] are lists or [None]; [n_inputs] is the length of
    the [input_ids] that [_convert_X] returns. *)

(** The truth value of a list or [None]. *)
Definition truthy {A} (x : option (list A)) : bool :=
  match x with Some (_ :: _) => true | _ => false end.

Definition convert_batch_size {F A} (X X_tokenized : option (list A))
  (n_inputs : nat) (cfg : config F) : config F :=
  if truthy X || truthy X_tokenized then
    if decide (n_inputs < batch_size cfg)
    then with_batch_size cfg (Nat.max n_inputs (length (_gpu_ids cfg)))
    else cfg
  else cfg.

(** *** The probabilities of [_get_score_outputs] (lines 305-306, 346-356)

    [batch_outputs] holds, per batch, the arrays the session returned for the
    fetched operations.  An array is the list of its rows (of its entries,
    for a vector), so that [np.vstack] and [np.hstack] are both [concat]. *)

(** [list(zip( *batch_outputs))[0]]: the first array of every batch. *)
Definition first_outputs {A} (batch_outputs : list (list A)) : result (list A) :=
  match batch_outputs with
  | [] => Raise IndexError
  | _ => match mapM head batch_outputs with
         | Some arrays => Ok arrays
         | None => Raise IndexError
         end
  end.

Definition _transform {A} (n_inputs : nat) (output_arrays : list (list A))
  : result (list A) :=
  _ ← index output_arrays 0;
  Ok (take n_inputs (concat output_arrays)).

Section ScoreOutputs.
Context {F : Type} `{Float F}.

(** [for batch_probs in output_arrays[0]: ... probs_arrays.append(...)] *)
Fixpoint score_probs_arrays (cfg : config F) (streams : list (list (list F)))
  : result (list (list (list F))) :=
  match streams with
  | [] => Ok []
  | batch_probs :: rest =>
      '(probs_array, _) ← GetScoreOutputs._permutate cfg batch_probs;
      probs_arrays ← score_probs_arrays cfg rest;
      Ok (probs_array :: probs_arrays)
  end.

(** The local [probs] of [_get_score_outputs]. *)
Definition score_probs (cfg : config F) (n_inputs : nat)
  (batch_outputs : list (list (list (list F)))) : result (list (list F)) :=
  streams ← first_outputs batch_outputs;
  probs_arrays ← score_probs_arrays cfg streams;
  _transform n_inputs probs_arrays.

End ScoreOutputs.

(** The test [!=] over the reals. *)
Definition Rneb (x y : R) : bool := if Req_dec_T x y then false else true.

(** Only the last of three heads kept, on two devices and on one. *)
Definition cfg_last_head_two_gpus : config R :=
  Config 2 2 [0%Z; 1%Z] 0.1%R [0; 1] 2.

(** * Results *)

(** ** The exception monad *)

Lemma bind_Ok {A B} (m : result A) (f : A → result B) (b : B) :
  m ≫= f = Ok b → ∃ a, m = Ok a ∧ f a = Ok b.
Proof. destruct m as [a|e]; simpl; [eauto | discriminate]. Qed.

Lemma index_Ok {A} (l : list A) (i : nat) (x : A) :
  index l i = Ok x ↔ l !! i = Some x.
Proof. unfold index. destruct (l !! i); split; congruence. Qed.

Lemma store_Ok {A} (l l' : list A) (i : nat) (x : A) :
  store l i x = Ok l' ↔ i < length l ∧ l' = <[i:=x]> l.
Proof.
  unfold store. destruct (decide (i < length l)); split.
  - intros [= <-]. auto.
  - intros [_ ->]. reflexivity.
  - discriminate.
  - intros [? _]. contradiction.
Qed.

Lemma bind_raises {A B} (m : result A) (f : A → result B) :
  raises_index m → (∀ a, raises_index (f a)) → raises_index (m ≫= f).
Proof.
  intros Hm Hf e. destruct m as [a|e']; simpl.
  - apply Hf.
  - intros [= <-]. by apply Hm.
Qed.

Lemma index_raises {A} (l : list A) (i : nat) : raises_index (index l i).
Proof. intros e. unfold index. destruct (l !! i); congruence. Qed.

Lemma store_raises {A} (l : list A) (i : nat) (x : A) :
  raises_index (store l i x).
Proof. intros e. unfold store. destruct (decide _); congruence. Qed.

Lemma Ok_raises {A} (a : A) : raises_index (Ok a).
Proof. intros e. discriminate. Qed.

(** Inverts every successful bind, lookup and store among the hypotheses. *)
Ltac invert_ok :=
  repeat match goal with
  | H : _ ≫= _ = Ok _ |- _ =>
      let a := fresh "a" in let Ha := fresh "Ha" in
      apply bind_Ok in H; destruct H as (a & Ha & H)
  | H : index _ _ = Ok _ |- _ => apply index_Ok in H
  | H : store _ _ _ = Ok _ |- _ =>
      let Hlt := fresh "Hlt" in apply store_Ok in H; destruct H as [Hlt ->]
  | H : Ok _ = Ok _ |- _ => injection H as H; subst
  | H : Raise _ = Ok _ |- _ => discriminate H
  | H : (let '(_, _) := ?p in _) = Ok _ |- _ => destruct p
  | H : (if ?b then _ else _) = Ok _ |- _ =>
      let E := fresh "E" in destruct b eqn:E
  end.

(** ** Erasure: the instrumented run is the plain run *)

Section Erasure.
Context {F : Type} `{Float F}.
Implicit Types (cfg : config F) (bp : list (list F)).

Lemma visit_erase cfg bp loop source pos st :
  erase (traced_visit cfg bp loop source pos st)
  = GetPredictOutputs.visit cfg bp loop source pos st.
Proof.
  destruct st as [[tb i] nu]. unfold traced_visit, GetPredictOutputs.visit.
  destruct (index bp i) as [row|]; simpl; [|reflexivity].
  destruct (index row 0) as [prob|]; simpl; [|reflexivity].
  destruct (_ || _); [|reflexivity].
  destruct (store (probs tb) pos row); simpl; [|reflexivity].
  destruct (store (sources tb) pos source); reflexivity.
Qed.

Lemma inner_erase cfg bp loop source unfinished st :
  erase (traced_inner cfg bp loop source unfinished st)
  = GetPredictOutputs.inner cfg bp loop source unfinished st.
Proof.
  revert st. induction unfinished as [|pos rest IH]; intros st; [reflexivity|].
  simpl. rewrite <- visit_erase.
  destruct (traced_visit cfg bp loop source pos st) as [[st' ev]|]; simpl;
    [|reflexivity].
  rewrite <- IH.
  destruct (traced_inner cfg bp loop source rest st') as [[st'' evs]|];
    reflexivity.
Qed.

Lemma loops_erase cfg bp n loop tb i unfinished :
  erase (traced_loops cfg bp n loop tb i unfinished)
  = GetPredictOutputs.loops cfg bp n loop tb i unfinished.
Proof.
  revert loop tb i unfinished.
  induction n as [|n IH]; intros loop tb i unfinished; [reflexivity|].
  simpl. destruct (index (keep_cls cfg) loop) as [source|]; simpl; [|reflexivity].
  rewrite <- inner_erase.
  destruct (traced_inner cfg bp loop source unfinished (tb, i, []))
    as [[[[tb' i'] nu] evs]|]; simpl; [|reflexivity].
  rewrite <- IH.
  destruct (traced_loops cfg bp n (S loop) tb' i' nu) as [[st evs']|];
    reflexivity.
Qed.

Lemma devices_erase cfg bp n tb i :
  erase (traced_devices cfg bp n tb i) = GetPredictOutputs.devices cfg bp n tb i.
Proof.
  revert tb i. induction n as [|n IH]; intros tb i; [reflexivity|].
  simpl. unfold traced_shard, GetPredictOutputs.shard. rewrite <- loops_erase.
  destruct (traced_loops _ _ _ _ _ _ _) as [[[[tb' i'] nu] evs]|]; simpl;
    [|reflexivity].
  rewrite <- IH.
  destruct (traced_devices cfg bp n tb' i') as [[[tb'' i''] evs']|];
    reflexivity.
Qed.

Lemma permutate_erase cfg bp :
  erase (traced_permutate cfg bp) = GetPredictOutputs._permutate cfg bp.
Proof.
  unfold traced_permutate, GetPredictOutputs._permutate.
  rewrite <- devices_erase.
  destruct (traced_devices _ _ _ _ _) as [[[tb i] evs]|]; simpl; [|reflexivity].
  destruct (decide _); reflexivity.
Qed.

(** A plain result comes with a trace, and a traced result is a plain one. *)
Lemma permutate_traced cfg bp pr sr :
  GetPredictOutputs._permutate cfg bp = Ok (pr, sr)
  ↔ ∃ evs, traced_permutate cfg bp = Ok (pr, sr, evs).
Proof.
  rewrite <- permutate_erase. split.
  - destruct (traced_permutate cfg bp) as [[[pr' sr'] evs]|]; simpl;
      [|discriminate].
    intros [= -> ->]. eauto.
  - intros [evs ->]. reflexivity.
Qed.

End Erasure.

(** ** What a trace says about the run *)

Section TraceSpec.
Context {F : Type} `{Float F}.
Implicit Types (cfg : config F) (bp : list (list F)) (tb : tables F).
Implicit Types (ev : event) (evs : list event).

Lemma zeros_rows cfg : table_rows (zeros cfg) (batch_size cfg).
Proof. split; simpl; apply repeat_length. Qed.

Lemma apply_event_rows cfg bp tb ev rows :
  table_rows tb rows → table_rows (apply_event cfg bp tb ev) rows.
Proof.
  intros [Hp Hs]. unfold apply_event. destruct (ev_resolved ev); [|done].
  split; simpl; rewrite length_insert; assumption.
Qed.

Lemma replay_rows cfg bp evs tb rows :
  table_rows tb rows → table_rows (replay cfg bp evs tb) rows.
Proof.
  revert tb. induction evs as [|ev evs IH]; intros tb Hr; [done|].
  apply IH, apply_event_rows, Hr.
Qed.

Lemma replay_app cfg bp evs evs' tb :
  replay cfg bp (evs ++ evs') tb = replay cfg bp evs' (replay cfg bp evs tb).
Proof. apply foldl_app. Qed.

Lemma written_app evs evs' : written (evs ++ evs') = written evs ++ written evs'.
Proof. unfold written. by rewrite filter_app, map_app. Qed.

Lemma carried_app evs evs' : carried (evs ++ evs') = carried evs ++ carried evs'.
Proof. unfold carried. by rewrite filter_app, map_app. Qed.

Lemma written_carried_perm evs : written evs ++ carried evs ≡ₚ map ev_pos evs.
Proof.
  induction evs as [|ev evs IH]; [done|].
  unfold written, carried in *. rewrite !filter_cons.
  destruct (ev_resolved ev) eqn:E; simpl.
  - by f_equiv.
  - rewrite <- Permutation_middle. by f_equiv.
Qed.

Lemma written_length evs :
  length (written evs) + length (carried evs) = length evs.
Proof.
  rewrite <- length_app, (Permutation_length (written_carried_perm evs)).
  apply length_map.
Qed.

(** One visit. *)
Lemma traced_visit_spec cfg bp loop source pos tb i nu st' ev rows :
  keep_cls cfg !! loop = Some source →
  table_rows tb rows →
  traced_visit cfg bp loop source pos (tb, i, nu) = Ok (st', ev) →
  ev_pos ev = pos ∧ ev_idx ev = i ∧ ev_loop ev = loop ∧
  ev_ok cfg bp rows ev ∧
  st' = (apply_event cfg bp tb ev, S i,
         if ev_resolved ev then nu else nu ++ [pos]).
Proof.
  intros Hsrc [Hp Hs] Hv. unfold traced_visit in Hv.
  apply bind_Ok in Hv as (row & Hrow & Hv). apply index_Ok in Hrow.
  apply bind_Ok in Hv as (prob & Hprob & Hv). apply index_Ok in Hprob.
  fold (resolves cfg prob loop) in Hv.
  destruct (resolves cfg prob loop) eqn:E.
  - invert_ok. simpl. split_and!; try reflexivity.
    + unfold ev_ok. simpl. split_and!; eauto.
    + unfold apply_event. simpl. by rewrite Hrow, Hsrc.
  - invert_ok. simpl. split_and!; try reflexivity.
    unfold ev_ok. simpl. split_and!; eauto. discriminate.
Qed.

(** One pass over the unfinished rows. *)
Lemma traced_inner_spec cfg bp loop source unfinished tb i nu tb' i' nu' evs rows :
  keep_cls cfg !! loop = Some source →
  table_rows tb rows →
  traced_inner cfg bp loop source unfinished (tb, i, nu) = Ok (tb', i', nu', evs) →
  map ev_pos evs = unfinished ∧
  map ev_idx evs = seq i (length evs) ∧
  Forall (fun ev => ev_loop ev = loop) evs ∧
  Forall (ev_ok cfg bp rows) evs ∧
  tb' = replay cfg bp evs tb ∧
  i' = i + length evs ∧
  nu' = nu ++ carried evs.
Proof.
  intros Hsrc. revert tb i nu evs.
  induction unfinished as [|pos rest IH]; intros tb i nu evs Hr Hin; simpl in Hin.
  - injection Hin as <- <- <- <-. unfold carried. simpl.
    rewrite app_nil_r, Nat.add_0_r. repeat split; constructor.
  - apply bind_Ok in Hin as ([st1 ev] & Hv & Hin).
    apply bind_Ok in Hin as ([st2 evs2] & Hrest & Hin).
    injection Hin as -> <-.
    destruct (traced_visit_spec _ _ _ _ _ _ _ _ _ _ _ Hsrc Hr Hv)
      as (Hpos & Hidx & Hloop & Hok & ->).
    apply IH in Hrest as (Hps & Hids & Hlps & Hoks & -> & -> & ->);
      [|by apply apply_event_rows].
    simpl. rewrite Hpos, Hidx, Hps, Hids.
    repeat split; try (constructor; assumption); [lia|].
    unfold carried. rewrite filter_cons.
    destruct (ev_resolved ev) eqn:E.
    + by rewrite decide_False by congruence.
    + rewrite decide_True by congruence. simpl. by rewrite <- app_assoc, Hpos.
Qed.

(** The cascade of one shard, from iteration [loop] with [n] to go. *)
Lemma traced_loops_spec cfg bp n loop tb i unfinished tb' i' nu' evs rows :
  table_rows tb rows →
  traced_loops cfg bp n loop tb i unfinished = Ok (tb', i', nu', evs) →
  map ev_idx evs = seq i (length evs) ∧
  Forall (fun ev => loop ≤ ev_loop ev < loop + n) evs ∧
  Forall (ev_ok cfg bp rows) evs ∧
  tb' = replay cfg bp evs tb ∧
  i' = i + length evs ∧
  written evs ++ nu' ≡ₚ unfinished ∧
  length evs ≤ n * length unfinished ∧
  length nu' ≤ length unfinished.
Proof.
  revert loop tb i unfinished evs.
  induction n as [|n IH]; intros loop tb i unfinished evs Hr Hl; simpl in Hl.
  - injection Hl as <- <- <- <-. simpl. rewrite Nat.add_0_r.
    split_and!; try done.
  - apply bind_Ok in Hl as (source & Hsrc & Hl). apply index_Ok in Hsrc.
    apply bind_Ok in Hl as ([[[tb1 i1] nu1] evs1] & Hin & Hl).
    apply bind_Ok in Hl as ([st2 evs2] & Hrec & Hl).
    injection Hl as -> <-.
    destruct (traced_inner_spec _ _ _ _ _ _ _ _ _ _ _ _ _ Hsrc Hr Hin)
      as (Hps & Hids & Hlps & Hoks & -> & -> & ->).
    apply IH in Hrec as (Hids2 & Hlps2 & Hoks2 & -> & -> & Hperm & Hlen & Hnu);
      [|by apply replay_rows].
    simpl in Hperm, Hlen, Hnu.
    pose proof (written_length evs1) as Hwl.
    assert (length evs1 = length unfinished) as Hl1
      by (rewrite <- Hps; symmetry; apply length_map).
    split_and!.
    + rewrite map_app, length_app, seq_app, Hids, Hids2. done.
    + apply Forall_app. split.
      * eapply Forall_impl; [exact Hlps|]. simpl. intros; lia.
      * eapply Forall_impl; [exact Hlps2|]. simpl. intros; lia.
    + apply Forall_app. done.
    + by rewrite replay_app.
    + rewrite length_app. lia.
    + rewrite written_app, <- app_assoc, Hperm, <- Hps.
      apply written_carried_perm.
    + rewrite length_app. nia.
    + lia.
Qed.

Lemma carried_all_resolved evs :
  Forall (fun ev => ev_resolved ev = true) evs → carried evs = [].
Proof.
  induction 1 as [|ev evs Hev _ IH]; [done|].
  unfold carried in *. rewrite filter_cons, decide_False by congruence. done.
Qed.

(** On the last iteration the test holds whatever the uncertainty is. *)
Lemma resolves_last cfg prob loop :
  Z.of_nat loop = (max_loop cfg - 1)%Z → resolves cfg prob loop = true.
Proof.
  intros Hl. unfold resolves. rewrite (bool_decide_eq_true_2 _ Hl).
  apply orb_true_r.
Qed.

(** When the cascade runs to its last iteration nothing is left unfinished. *)
Lemma traced_loops_last cfg bp n loop tb i unfinished tb' i' nu' evs rows :
  table_rows tb rows →
  0 < n → Z.of_nat (loop + n) = max_loop cfg →
  traced_loops cfg bp n loop tb i unfinished = Ok (tb', i', nu', evs) →
  nu' = [].
Proof.
  revert loop tb i unfinished evs.
  induction n as [|n IH]; intros loop tb i unfinished evs Hr Hn Hlast Hl;
    [lia|].
  simpl in Hl.
  apply bind_Ok in Hl as (source & Hsrc & Hl). apply index_Ok in Hsrc.
  apply bind_Ok in Hl as ([[[tb1 i1] nu1] evs1] & Hin & Hl).
  apply bind_Ok in Hl as ([st2 evs2] & Hrec & Hl).
  injection Hl as -> <-.
  destruct (traced_inner_spec _ _ _ _ _ _ _ _ _ _ _ _ _ Hsrc Hr Hin)
    as (Hps & Hids & Hlps & Hoks & -> & -> & ->).
  destruct n as [|n].
  - simpl in Hrec. injection Hrec as <- <- <- <-. simpl.
    apply carried_all_resolved.
    rewrite Forall_forall in *. intros ev Hev.
    destruct (Hoks ev Hev) as ((row & prob & _ & _ & ->) & _).
    apply resolves_last. rewrite (Hlps ev Hev). lia.
  - eapply IH in Hrec; [done|by apply replay_rows|lia|lia].
Qed.

(** All shards in turn. *)
Lemma traced_devices_spec cfg bp n tb i tb' i' evs rows :
  table_rows tb rows →
  traced_devices cfg bp n tb i = Ok (tb', i', evs) →
  map ev_idx evs = seq i (length evs) ∧
  Forall (ev_ok cfg bp rows) evs ∧
  tb' = replay cfg bp evs tb ∧
  i' = i + length evs.
Proof.
  revert tb i evs. induction n as [|n IH]; intros tb i evs Hr Hd; simpl in Hd.
  - injection Hd as <- <- <-. simpl. rewrite Nat.add_0_r. done.
  - apply bind_Ok in Hd as ([[[tb1 i1] nu1] evs1] & Hsh & Hd).
    apply bind_Ok in Hd as ([[tb2 i2] evs2] & Hrec & Hd).
    injection Hd as -> -> <-.
    apply (traced_loops_spec _ _ _ _ _ _ _ _ _ _ _ _ Hr) in Hsh
      as (Hids & _ & Hoks & -> & -> & _).
    apply IH in Hrec as (Hids2 & Hoks2 & -> & ->); [|by apply replay_rows].
    split_and!.
    + rewrite map_app, length_app, seq_app, Hids, Hids2. done.
    + by apply Forall_app.
    + by rewrite replay_app.
    + rewrite length_app. lia.
Qed.

(** *** Reading the tables off a trace *)

Lemma replay_untouched cfg bp evs tb pos :
  pos ∉ written evs →
  probs (replay cfg bp evs tb) !! pos = probs tb !! pos ∧
  sources (replay cfg bp evs tb) !! pos = sources tb !! pos.
Proof.
  revert tb. induction evs as [|ev evs IH]; intros tb Hpos; [done|].
  simpl. unfold written in Hpos. rewrite filter_cons in Hpos.
  destruct (ev_resolved ev) eqn:E; simpl in Hpos.
  - apply not_elem_of_cons in Hpos as [Hne Hpos].
    destruct (IH (apply_event cfg bp tb ev) Hpos) as [-> ->].
    unfold apply_event. rewrite E. simpl.
    by rewrite !list_lookup_insert_ne.
  - destruct (IH (apply_event cfg bp tb ev) Hpos) as [-> ->].
    unfold apply_event. by rewrite E.
Qed.

(** Whatever was written last at a written row, it names a kept head. *)
Lemma replay_sources_keep cfg bp evs tb rows pos :
  table_rows tb rows →
  Forall (ev_ok cfg bp rows) evs →
  pos ∈ written evs →
  ∃ s, sources (replay cfg bp evs tb) !! pos = Some s ∧ s ∈ keep_cls cfg.
Proof.
  revert tb. induction evs as [|ev evs IH]; intros tb Hr Hoks Hpos.
  - unfold written in Hpos. simpl in Hpos. by apply elem_of_nil in Hpos.
  - apply Forall_cons in Hoks as [Hok Hoks].
    destruct (decide (pos ∈ written evs)) as [Hin|Hnin].
    + simpl. apply IH; [by apply apply_event_rows|done|done].
    + unfold written in Hpos. rewrite filter_cons in Hpos.
      destruct (ev_resolved ev) eqn:E; simpl in Hpos; [|done].
      apply elem_of_cons in Hpos as [->|Hpos]; [|done].
      simpl. destruct (replay_untouched cfg bp evs (apply_event cfg bp tb ev) _ Hnin)
        as [_ ->].
      destruct Hok as (_ & [source Hsrc] & Hlt). destruct Hr as [_ Hs].
      unfold apply_event. rewrite E, Hsrc. simpl.
      exists source. split.
      * apply list_lookup_insert_eq. rewrite Hs. auto.
      * eapply list_elem_of_lookup_2, Hsrc.
Qed.

(** When no row is written twice, each written row holds what its visit
    consumed and the head of its iteration. *)
Lemma replay_lookup_nodup cfg bp evs tb rows ev :
  table_rows tb rows →
  Forall (ev_ok cfg bp rows) evs →
  NoDup (written evs) →
  ev ∈ evs → ev_resolved ev = true →
  probs (replay cfg bp evs tb) !! ev_pos ev = bp !! ev_idx ev ∧
  sources (replay cfg bp evs tb) !! ev_pos ev = keep_cls cfg !! ev_loop ev.
Proof.
  revert tb. induction evs as [|ev0 evs IH]; intros tb Hr Hoks Hnd Hev Hres.
  - by apply elem_of_nil in Hev.
  - apply Forall_cons in Hoks as [Hok Hoks].
    unfold written in Hnd. rewrite filter_cons in Hnd.
    apply elem_of_cons in Hev as [<-|Hev].
    + rewrite Hres in Hnd. simpl in Hnd. apply NoDup_cons in Hnd as [Hnin _].
      simpl. destruct (replay_untouched cfg bp evs (apply_event cfg bp tb ev) _ Hnin)
        as [-> ->].
      destruct Hok as ((row & prob & Hrow & _) & [source Hsrc] & Hlt).
      destruct Hr as [Hp Hs].
      unfold apply_event. rewrite Hres, Hrow, Hsrc. simpl.
      split; apply list_lookup_insert_eq; [rewrite Hp|rewrite Hs]; auto.
    + simpl. apply IH; auto using apply_event_rows.
      destruct (ev_resolved ev0); simpl in Hnd; [|done].
      by apply NoDup_cons in Hnd as [_ Hnd].
Qed.

(** *** One device: every row is written exactly once *)

Lemma shard_unfinished_single cfg :
  length (_gpu_ids cfg) ≤ 1 →
  n_device cfg = 1 ∧
  map (fun k => k + 0) (seq 0 (d_batch_size cfg)) = seq 0 (batch_size cfg).
Proof.
  intros Hg. assert (n_device cfg = 1) as Hn by (unfold n_device; lia).
  split; [done|]. unfold d_batch_size. rewrite Hn, Nat.div_1_r.
  rewrite <- (map_id (seq 0 (batch_size cfg))) at 2.
  apply map_ext. intros; lia.
Qed.

Lemma coverage_single_device cfg bp pr sr evs :
  length (_gpu_ids cfg) ≤ 1 → (1 ≤ max_loop cfg)%Z →
  traced_permutate cfg bp = Ok (pr, sr, evs) →
  written evs ≡ₚ seq 0 (batch_size cfg) ∧
  ∀ ev, ev ∈ evs → ev_resolved ev = true →
    pr !! ev_pos ev = bp !! ev_idx ev ∧
    sr !! ev_pos ev = keep_cls cfg !! ev_loop ev.
Proof.
  intros Hg Hml Hrun. unfold traced_permutate in Hrun.
  apply bind_Ok in Hrun as ([[tb i] evs0] & Hdev & Hrun).
  destruct (decide (i = length bp)); [|discriminate].
  injection Hrun as <- <- <-.
  pose proof (zeros_rows cfg) as Hr.
  destruct (traced_devices_spec _ _ _ _ _ _ _ _ _ Hr Hdev) as (_ & Hoks & Htb & _).
  destruct (shard_unfinished_single cfg Hg) as [Hn Hunf].
  rewrite Hn in Hdev. simpl in Hdev.
  apply bind_Ok in Hdev as ([[[tb1 i1] nu1] evs1] & Hsh & Hdev).
  injection Hdev as -> -> <-. rewrite app_nil_r in *.
  unfold traced_shard in Hsh. rewrite Hunf in Hsh.
  assert (nu1 = []) as ->.
  { eapply (traced_loops_last _ _ _ _ _ _ _ _ _ _ _ _ Hr); [| |exact Hsh]; lia. }
  destruct (traced_loops_spec _ _ _ _ _ _ _ _ _ _ _ _ Hr Hsh)
    as (_ & _ & _ & _ & _ & Hperm & _).
  rewrite app_nil_r in Hperm. split; [done|].
  intros ev Hev Hres. rewrite Htb.
  eapply replay_lookup_nodup; eauto.
  rewrite Hperm. apply NoDup_seq.
Qed.

End TraceSpec.

(** ** The two copies of the helpers agree *)

Section Agreement.
Context {F : Type} `{Float F}.
Implicit Types (cfg : config F) (bp : list (list F)).

Lemma uncertainty_agree cfg prob :
  GetScoreOutputs._uncertainty cfg prob = GetPredictOutputs._uncertainty cfg prob.
Proof. reflexivity. Qed.

Lemma visit_agree cfg bp loop source pos st :
  GetScoreOutputs.visit cfg bp loop source pos st
  = GetPredictOutputs.visit cfg bp loop source pos st.
Proof.
  destruct st as [[tb i] nu].
  unfold GetScoreOutputs.visit, GetPredictOutputs.visit.
  destruct (index bp i) as [row|]; simpl; [|reflexivity].
  destruct (index row 0) as [prob|]; simpl; [|reflexivity].
  by rewrite uncertainty_agree.
Qed.

Lemma inner_agree cfg bp loop source unfinished st :
  GetScoreOutputs.inner cfg bp loop source unfinished st
  = GetPredictOutputs.inner cfg bp loop source unfinished st.
Proof.
  revert st. induction unfinished as [|pos rest IH]; intros st; [reflexivity|].
  simpl. rewrite visit_agree.
  destruct (GetPredictOutputs.visit cfg bp loop source pos st); simpl; auto.
Qed.

Lemma loops_agree cfg bp n loop tb i unfinished :
  GetScoreOutputs.loops cfg bp n loop tb i unfinished
  = GetPredictOutputs.loops cfg bp n loop tb i unfinished.
Proof.
  revert loop tb i unfinished.
  induction n as [|n IH]; intros loop tb i unfinished; [reflexivity|].
  simpl. destruct (index (keep_cls cfg) loop) as [source|]; simpl; [|reflexivity].
  rewrite inner_agree.
  destruct (GetPredictOutputs.inner _ _ _ _ _ _) as [[[tb' i'] nu]|]; simpl; auto.
Qed.

Lemma devices_agree cfg bp n tb i :
  GetScoreOutputs.devices cfg bp n tb i = GetPredictOutputs.devices cfg bp n tb i.
Proof.
  revert tb i. induction n as [|n IH]; intros tb i; [reflexivity|].
  simpl. unfold GetScoreOutputs.shard, GetPredictOutputs.shard.
  rewrite loops_agree.
  destruct (GetPredictOutputs.loops _ _ _ _ _ _ _) as [[[tb' i'] nu]|]; simpl; auto.
Qed.

Lemma permutate_agree cfg bp :
  GetScoreOutputs._permutate cfg bp = GetPredictOutputs._permutate cfg bp.
Proof.
  unfold GetScoreOutputs._permutate, GetPredictOutputs._permutate.
  by rewrite devices_agree.
Qed.

(** C10.  The helpers nested in [_get_score_outputs] compute the same
    functions as those nested in [_get_predict_outputs]: for every
    configuration and every flat stream the two [_permutate] return the same
    tables, or raise the same exception, and the two [_uncertainty] return
    the same number. *)
Theorem predict_score_equivalence cfg bp :
  GetScoreOutputs._permutate cfg bp = GetPredictOutputs._permutate cfg bp ∧
  ∀ prob,
    GetScoreOutputs._uncertainty cfg prob = GetPredictOutputs._uncertainty cfg prob.
Proof. split; [apply permutate_agree | apply uncertainty_agree]. Qed.

End Agreement.

(** ** The cascade *)

Section Cascade.
Context {F : Type} `{Float F}.
Implicit Types (cfg : config F) (bp : list (list F)) (tb : tables F).
Implicit Types (ev : event) (evs : list event).

Lemma resolves_iff cfg prob loop :
  resolves cfg prob loop = true ↔
  f_lt (GetPredictOutputs._uncertainty cfg prob) (_speed cfg) = true
  ∨ Z.of_nat loop = (max_loop cfg - 1)%Z.
Proof.
  unfold resolves. rewrite orb_true_iff, bool_decide_eq_true. reflexivity.
Qed.

(** C2, as the code has it.  When the loops of [_permutate] run to their
    end, every visit they made consumed a vector of the stream and was made
    at a head of [keep_cls]; it resolved its example exactly when the
    uncertainty of the vector's first component is below the threshold or
    the iteration is the last one, so on the last iteration it resolved it
    whatever the uncertainty; and the source left in the table at a resolved
    example is a head of [keep_cls]. *)
Theorem cascade_rule cfg bp tb i evs ev :
  traced_devices cfg bp (n_device cfg) (zeros cfg) 0 = Ok (tb, i, evs) →
  ev ∈ evs →
  (∃ row prob source,
     bp !! ev_idx ev = Some row ∧ row !! 0 = Some prob ∧
     keep_cls cfg !! ev_loop ev = Some source ∧ source ∈ keep_cls cfg ∧
     (ev_resolved ev = true ↔
        f_lt (GetPredictOutputs._uncertainty cfg prob) (_speed cfg) = true
        ∨ Z.of_nat (ev_loop ev) = (max_loop cfg - 1)%Z)) ∧
  (Z.of_nat (ev_loop ev) = (max_loop cfg - 1)%Z → ev_resolved ev = true) ∧
  (ev_resolved ev = true →
   ∃ s, sources tb !! ev_pos ev = Some s ∧ s ∈ keep_cls cfg).
Proof.
  intros Hdev Hev. pose proof (zeros_rows cfg) as Hr.
  destruct (traced_devices_spec _ _ _ _ _ _ _ _ _ Hr Hdev) as (_ & Hoks & -> & _).
  pose proof Hoks as Hoks'. rewrite Forall_forall in Hoks'.
  destruct (Hoks' ev Hev) as ((row & prob & Hrow & Hprob & Hres) & [source Hsrc] & _).
  split_and!.
  - exists row, prob, source. split_and!; auto.
    + eapply list_elem_of_lookup_2, Hsrc.
    + rewrite Hres. apply resolves_iff.
  - intros Hlast. rewrite Hres. by apply resolves_last.
  - intros Hwr. eapply replay_sources_keep; eauto.
    unfold written. apply list_elem_of_fmap. exists ev. split; [done|].
    by apply list_elem_of_filter.
Qed.

(** The loops raise nothing but [IndexError]. *)
Lemma traced_visit_raises cfg bp loop source pos st :
  raises_index (traced_visit cfg bp loop source pos st).
Proof.
  destruct st as [[tb i] nu]. unfold traced_visit.
  apply bind_raises; [apply index_raises|]. intros row.
  apply bind_raises; [apply index_raises|]. intros prob.
  destruct (_ || _); [|apply Ok_raises].
  apply bind_raises; [apply store_raises|]. intros probs'.
  apply bind_raises; [apply store_raises|]. intros sources'. apply Ok_raises.
Qed.

Lemma traced_inner_raises cfg bp loop source unfinished st :
  raises_index (traced_inner cfg bp loop source unfinished st).
Proof.
  revert st. induction unfinished as [|pos rest IH]; intros st; simpl;
    [apply Ok_raises|].
  apply bind_raises; [apply traced_visit_raises|]. intros [st' ev].
  apply bind_raises; [apply IH|]. intros [st'' evs]. apply Ok_raises.
Qed.

Lemma traced_loops_raises cfg bp n loop tb i unfinished :
  raises_index (traced_loops cfg bp n loop tb i unfinished).
Proof.
  revert loop tb i unfinished.
  induction n as [|n IH]; intros loop tb i unfinished; simpl;
    [apply Ok_raises|].
  apply bind_raises; [apply index_raises|]. intros source.
  apply bind_raises; [apply traced_inner_raises|]. intros [[[tb' i'] nu] evs].
  apply bind_raises; [apply IH|]. intros [st evs']. apply Ok_raises.
Qed.

Lemma traced_devices_raises cfg bp n tb i :
  raises_index (traced_devices cfg bp n tb i).
Proof.
  revert tb i. induction n as [|n IH]; intros tb i; simpl; [apply Ok_raises|].
  apply bind_raises; [apply traced_loops_raises|]. intros [[[tb' i'] nu] evs].
  apply bind_raises; [apply IH|]. intros [[tb'' i''] evs']. apply Ok_raises.
Qed.

(** The stream indices of a sound trace lie inside the stream. *)
Lemma trace_within_stream cfg bp rows evs :
  map ev_idx evs = seq 0 (length evs) →
  Forall (ev_ok cfg bp rows) evs →
  length evs ≤ length bp.
Proof.
  intros Hids Hoks. destruct (length evs) as [|n] eqn:Hlen; [lia|].
  destruct (lookup_lt_is_Some_2 evs n) as [ev Hev]; [lia|].
  assert (ev_idx ev = n) as Hn.
  { assert (map ev_idx evs !! n = Some (ev_idx ev)) as Hm
      by (by rewrite list_lookup_fmap, Hev).
    rewrite Hids in Hm. apply lookup_seq in Hm. lia. }
  rewrite Forall_forall in Hoks.
  destruct (Hoks ev (list_elem_of_lookup_2 _ _ _ Hev)) as ((row & _ & Hrow & _) & _).
  apply lookup_lt_Some in Hrow. lia.
Qed.

(** C3.  Every call of [_permutate] goes one of two ways.  Either its loops
    run to their end: the vectors they consumed are then the first [i] of the
    stream, each once and in order, [i] cannot exceed the length of the
    stream, and the call returns the tables when [i] is that length and
    raises [AssertionError] when it is not.  Or the loops raise [IndexError],
    and so does the call.  The scoring path does the same. *)
Theorem consumption_conservation cfg bp :
  ((∃ tb i evs,
      traced_devices cfg bp (n_device cfg) (zeros cfg) 0 = Ok (tb, i, evs) ∧
      i = length evs ∧ map ev_idx evs = seq 0 i ∧ i ≤ length bp ∧
      GetPredictOutputs._permutate cfg bp
      = if decide (i = length bp) then Ok (probs tb, sources tb)
        else Raise AssertionError)
   ∨ (traced_devices cfg bp (n_device cfg) (zeros cfg) 0 = Raise IndexError ∧
      GetPredictOutputs._permutate cfg bp = Raise IndexError)) ∧
  GetScoreOutputs._permutate cfg bp = GetPredictOutputs._permutate cfg bp.
Proof.
  split; [|apply permutate_agree].
  unfold GetPredictOutputs._permutate. rewrite <- devices_erase.
  destruct (traced_devices cfg bp (n_device cfg) (zeros cfg) 0)
    as [[[tb i] evs]|e] eqn:Hdev.
  - left. exists tb, i, evs. pose proof (zeros_rows cfg) as Hr.
    destruct (traced_devices_spec _ _ _ _ _ _ _ _ _ Hr Hdev)
      as (Hids & Hoks & _ & Hi).
    simpl in Hi. subst i. split_and!; auto.
    eapply trace_within_stream; eauto.
  - right. rewrite (traced_devices_raises _ _ _ _ _ _ Hdev). done.
Qed.

(** C8, as the code has it.  In tables of [batch_size] rows and with
    [max_loop >= 1], a shard that runs to its end consumes one vector per
    visit; it resolves each of its [d_batch_size] examples in exactly one
    visit and leaves none unfinished; so the number of vectors it consumes is
    [d_batch_size] plus the number of visits that carried an example over,
    which is at least [d_batch_size] and at most [max_loop * d_batch_size]. *)
Theorem shard_stream_length cfg bp tb i tb' i' nu' evs :
  table_rows tb (batch_size cfg) → (1 ≤ max_loop cfg)%Z →
  traced_shard cfg bp tb i = Ok (tb', i', nu', evs) →
  i' = i + length evs ∧
  length (written evs) = d_batch_size cfg ∧
  nu' = [] ∧
  length evs = d_batch_size cfg + length (carried evs) ∧
  d_batch_size cfg ≤ length evs ≤ Z.to_nat (max_loop cfg) * d_batch_size cfg.
Proof.
  intros Hr Hml Hsh. unfold traced_shard in Hsh.
  assert (nu' = []) as ->.
  { eapply (traced_loops_last _ _ _ _ _ _ _ _ _ _ _ _ Hr); [| |exact Hsh]; lia. }
  destruct (traced_loops_spec _ _ _ _ _ _ _ _ _ _ _ _ Hr Hsh)
    as (_ & _ & _ & _ & Hi & Hperm & Hlen & _).
  rewrite app_nil_r in Hperm. apply Permutation_length in Hperm.
  rewrite length_map, length_seq in Hperm, Hlen.
  pose proof (written_length evs). split_and!; auto; lia.
Qed.

End Cascade.

(** ** The ignore list *)

Section IgnoreSet.
Context {F : Type}.
Implicit Types (cfg : config F).

(** The heads [0..L], in order. *)
Lemma heads_elem (L : nat) (h : Z) :
  h ∈ map Z.of_nat (seq 0 (L + 1)) ↔ (0 ≤ h ≤ Z.of_nat L)%Z.
Proof.
  rewrite list_elem_of_fmap. split.
  - intros (k & -> & Hk). apply elem_of_seq in Hk. lia.
  - intros Hh. exists (Z.to_nat h). split; [lia|]. apply elem_of_seq. lia.
Qed.

Lemma heads_nodup (L : nat) : NoDup (map Z.of_nat (seq 0 (L + 1))).
Proof. apply (NoDup_fmap_2 _), NoDup_seq. Qed.

Lemma heads_sorted (n k : nat) : StronglySorted Z.lt (map Z.of_nat (seq k n)).
Proof.
  revert k. induction n as [|n IH]; intros k; simpl; constructor; [apply IH|].
  apply Forall_forall. intros h Hh.
  apply list_elem_of_fmap in Hh as (j & -> & Hj). apply elem_of_seq in Hj. lia.
Qed.

Lemma filter_sorted {A} (R : relation A) (P : A → Prop)
  `{∀ x, Decision (P x)} (l : list A) :
  StronglySorted R l → StronglySorted R (filter P l).
Proof.
  induction 1 as [|x l Hl IH Hx]; [constructor|].
  rewrite filter_cons. destruct (decide (P x)); [|done].
  constructor; [done|]. rewrite Forall_forall in *.
  intros y Hy. apply list_elem_of_filter in Hy as [_ Hy]. auto.
Qed.

Lemma keep_cls_elem cfg (h : Z) :
  h ∈ keep_cls cfg ↔
  (0 ≤ h ≤ Z.of_nat (num_hidden_layers cfg))%Z ∧ h ∉ _ignore_cls cfg.
Proof. unfold keep_cls. rewrite list_elem_of_filter, heads_elem. tauto. Qed.

Lemma keep_cls_sorted cfg : StronglySorted Z.lt (keep_cls cfg).
Proof. apply filter_sorted, heads_sorted. Qed.

(** [max_loop] never exceeds the number of kept heads, so [keep_cls[loop]]
    is always in range. *)
Lemma max_loop_le_keep cfg : (max_loop cfg ≤ Z.of_nat (length (keep_cls cfg)))%Z.
Proof.
  unfold max_loop, keep_cls.
  set (heads := map Z.of_nat (seq 0 (num_hidden_layers cfg + 1))).
  pose proof (filter_app_complement (fun h => h ∉ _ignore_cls cfg) heads) as Hp.
  apply Permutation_length in Hp. rewrite length_app in Hp.
  assert (length heads = num_hidden_layers cfg + 1) as Hh
    by (unfold heads; by rewrite length_map, length_seq).
  assert (length (filter (fun h => ¬ (h ∉ _ignore_cls cfg)) heads)
          ≤ length (_ignore_cls cfg)) as Hle.
  { apply submseteq_length, NoDup_submseteq.
    - apply NoDup_filter, heads_nodup.
    - intros h Hin. apply list_elem_of_filter in Hin as [Hin _].
      destruct (decide (h ∈ _ignore_cls cfg)); tauto. }
  lia.
Qed.

(** With a duplicate-free ignore list inside [0..L], every kept head gets
    its iteration. *)
Lemma max_loop_eq_keep cfg :
  NoDup (_ignore_cls cfg) →
  (∀ h, h ∈ _ignore_cls cfg → (0 ≤ h ≤ Z.of_nat (num_hidden_layers cfg))%Z) →
  max_loop cfg = Z.of_nat (length (keep_cls cfg)).
Proof.
  intros Hnd Hsub. pose proof (max_loop_le_keep cfg) as Hle.
  unfold max_loop, keep_cls in *.
  set (heads := map Z.of_nat (seq 0 (num_hidden_layers cfg + 1))) in *.
  pose proof (filter_app_complement (fun h => h ∉ _ignore_cls cfg) heads) as Hp.
  apply Permutation_length in Hp. rewrite length_app in Hp.
  assert (length heads = num_hidden_layers cfg + 1) as Hh
    by (unfold heads; by rewrite length_map, length_seq).
  assert (length (_ignore_cls cfg)
          ≤ length (filter (fun h => ¬ (h ∉ _ignore_cls cfg)) heads)) as Hge.
  { apply submseteq_length, NoDup_submseteq; [done|].
    intros h Hin. apply list_elem_of_filter. split; [tauto|].
    apply heads_elem. auto. }
  lia.
Qed.

(** C7.  For duplicate-free ignore lists inside [0..L], the second one
    containing the first: [max_loop] is [(L+1)] minus the size of the ignore
    list and is the number of kept heads; [keep_cls] is the ascending list of
    the heads [0..L] that are not ignored; a head more in the ignore list
    makes [max_loop] strictly smaller; and the heads kept under the larger
    list are those kept under the smaller one with the newly ignored heads
    removed, in the same order. *)
Theorem ignore_set_effect cfg cfg' :
  num_hidden_layers cfg' = num_hidden_layers cfg →
  NoDup (_ignore_cls cfg) → NoDup (_ignore_cls cfg') →
  (∀ h, h ∈ _ignore_cls cfg' → (0 ≤ h ≤ Z.of_nat (num_hidden_layers cfg))%Z) →
  (∀ h, h ∈ _ignore_cls cfg → h ∈ _ignore_cls cfg') →
  max_loop cfg
  = (Z.of_nat (num_hidden_layers cfg) + 1 - Z.of_nat (length (_ignore_cls cfg)))%Z ∧
  max_loop cfg = Z.of_nat (length (keep_cls cfg)) ∧
  StronglySorted Z.lt (keep_cls cfg) ∧
  (∀ h, h ∈ keep_cls cfg ↔
        (0 ≤ h ≤ Z.of_nat (num_hidden_layers cfg))%Z ∧ h ∉ _ignore_cls cfg) ∧
  ((∃ h, h ∈ _ignore_cls cfg' ∧ h ∉ _ignore_cls cfg) →
   (max_loop cfg' < max_loop cfg)%Z) ∧
  keep_cls cfg' = filter (fun h => h ∉ _ignore_cls cfg') (keep_cls cfg) ∧
  keep_cls cfg' `sublist_of` keep_cls cfg.
Proof.
  intros HL Hnd Hnd' Hsub' Hincl.
  assert (keep_cls cfg' = filter (fun h => h ∉ _ignore_cls cfg') (keep_cls cfg))
    as Hkeep.
  { unfold keep_cls. rewrite HL, list_filter_filter.
    apply list_filter_iff. intros h. split; [|tauto].
    intros Hh. split; [done|]. intros Hin. apply Hh, Hincl, Hin. }
  split_and!.
  - reflexivity.
  - apply max_loop_eq_keep; auto.
  - apply keep_cls_sorted.
  - apply keep_cls_elem.
  - intros (h & Hin & Hnin). unfold max_loop. rewrite HL.
    assert (length (h :: _ignore_cls cfg) ≤ length (_ignore_cls cfg')) as Hlen.
    { apply submseteq_length, NoDup_submseteq.
      - by apply NoDup_cons.
      - intros x Hx. apply elem_of_cons in Hx as [->|Hx]; auto. }
    simpl in Hlen. lia.
  - exact Hkeep.
  - rewrite Hkeep. apply sublist_filter.
Qed.

End IgnoreSet.

(** ** Every head ignored *)

Section AllIgnored.
Context {F : Type} `{Float F}.
Implicit Types (cfg : config F) (bp : list (list F)) (tb : tables F).

Lemma traced_devices_no_loop cfg bp n tb i :
  (max_loop cfg ≤ 0)%Z → traced_devices cfg bp n tb i = Ok (tb, i, []).
Proof.
  intros Hml. revert tb i. induction n as [|n IH]; intros tb i; [reflexivity|].
  simpl. unfold traced_shard.
  replace (Z.to_nat (max_loop cfg)) with 0 by lia. simpl.
  by rewrite IH.
Qed.

(** C9, as the code has it.  When every head [0..L] is in the ignore list,
    [max_loop] is at most 0 and no head is kept; [_permutate] makes no visit
    and writes nothing; it returns the tables of zeros when the stream is
    empty and raises [AssertionError] when it is not, on the prediction path
    and on the scoring path alike. *)
Theorem all_heads_ignored cfg bp :
  (∀ h, (0 ≤ h ≤ Z.of_nat (num_hidden_layers cfg))%Z → h ∈ _ignore_cls cfg) →
  (max_loop cfg ≤ 0)%Z ∧ keep_cls cfg = [] ∧
  traced_devices cfg bp (n_device cfg) (zeros cfg) 0 = Ok (zeros cfg, 0, []) ∧
  GetPredictOutputs._permutate cfg bp
  = (if decide (0 = length bp) then Ok (probs (zeros cfg), sources (zeros cfg))
     else Raise AssertionError) ∧
  GetScoreOutputs._permutate cfg bp = GetPredictOutputs._permutate cfg bp.
Proof.
  intros Hall.
  assert (keep_cls cfg = []) as Hkeep.
  { destruct (keep_cls cfg) as [|h l] eqn:E; [done|].
    assert (h ∈ keep_cls cfg) as Hh by (rewrite E; left).
    apply keep_cls_elem in Hh as [Hr Hn]. destruct Hn. auto. }
  assert (max_loop cfg ≤ 0)%Z as Hml.
  { pose proof (max_loop_le_keep cfg) as Hle. rewrite Hkeep in Hle.
    simpl in Hle. lia. }
  split_and!; [done|done| | |apply permutate_agree].
  - by apply traced_devices_no_loop.
  - unfold GetPredictOutputs._permutate.
    rewrite <- devices_erase, (traced_devices_no_loop _ _ _ _ _ Hml). done.
Qed.

End AllIgnored.

(** ** The score of the vectors used in the concrete runs *)

Section Entropy.
Local Open Scope R_scope.

Lemma Rltb_true x y : Rltb x y = true ↔ x < y.
Proof. unfold Rltb. destruct (Rlt_dec x y); split; auto; discriminate. Qed.

Lemma Rltb_false x y : Rltb x y = false ↔ y <= x.
Proof.
  unfold Rltb. destruct (Rlt_dec x y); split; auto; try discriminate; lra.
Qed.

Lemma uncertainty_cfg (cfg : config R) p :
  GetPredictOutputs._uncertainty cfg p = uncertainty (label_size cfg) p.
Proof. reflexivity. Qed.

Lemma uncertainty_inside C p :
  1e-20 <= p <= 1 - 1e-20 →
  uncertainty C p = entropy p / ln (1 / IZR (Z.pos C)).
Proof.
  intros [Hlo Hhi]. unfold uncertainty, GetPredictOutputs._uncertainty. simpl.
  assert (Rltb p 1e-20 = false) as -> by (apply Rltb_false; lra).
  assert (Rltb (1 - p) 1e-20 = false) as -> by (apply Rltb_false; lra).
  reflexivity.
Qed.

Lemma uncertainty_outside C p :
  p < 1e-20 ∨ 1 - 1e-20 < p →
  uncertainty C p = entropy 1e-20 / ln (1 / IZR (Z.pos C)).
Proof.
  intros Hp. unfold uncertainty, GetPredictOutputs._uncertainty. simpl.
  destruct (Rltb p 1e-20) eqn:E1; [reflexivity|].
  apply Rltb_false in E1.
  assert (Rltb (1 - p) 1e-20 = true) as -> by (apply Rltb_true; lra).
  reflexivity.
Qed.



(** *** Elementary facts on the logarithm *)

Lemma ln_le_sub1 x : 0 < x → ln x <= x - 1.
Proof.
  intros Hx. destruct (Req_dec (ln x) 0) as [E|E].
  - rewrite E. destruct (Req_dec x 1) as [->|Hne]; [lra|].
    exfalso. by apply (ln_neq_0 x).
  - pose proof (exp_ineq1 (ln x) E) as Hlt. rewrite exp_ln in Hlt by done. lra.
Qed.

Lemma ln_neg x : 0 < x < 1 → ln x < 0.
Proof. intros [H0 H1]. rewrite <- ln_1. by apply ln_increasing. Qed.

Lemma ln_le x y : 0 < x → x <= y → ln x <= ln y.
Proof.
  intros Hx [Hlt| ->]; [|lra]. left. by apply ln_increasing.
Qed.

Lemma entropy_neg q : 0 < q < 1 → entropy q < 0.
Proof.
  intros Hq. unfold entropy.
  pose proof (ln_neg q Hq). pose proof (ln_neg (1 - q) ltac:(lra)).
  assert (q * ln q < 0) by nra. assert ((1 - q) * ln (1 - q) < 0) by nra.
  lra.
Qed.

Lemma ln_classes C : (2 ≤ Z.pos C)%Z → ln (1 / IZR (Z.pos C)) < - (1 / 2).
Proof.
  intros HC. assert (2 <= IZR (Z.pos C)) as H2 by (by apply IZR_le).
  unfold Rdiv. rewrite Rmult_1_l, ln_Rinv by lra.
  pose proof ln_lt_2. pose proof (ln_le 2 (IZR (Z.pos C)) ltac:(lra) H2). lra.
Qed.

Lemma ln_tiny : - 180 <= ln 1e-20.
Proof.
  replace 1e-20 with (/ 10 ^ 20) by lra.
  rewrite ln_Rinv by lra. rewrite ln_pow by lra.
  pose proof (ln_le_sub1 10 ltac:(lra)). simpl INR. lra.
Qed.

Lemma entropy_tiny : - (181 * 1e-20) <= entropy 1e-20 < 0.
Proof.
  split; [|apply entropy_neg; lra]. unfold entropy.
  pose proof ln_tiny as Ht.
  assert (- ln (1 - 1e-20) <= / (1 - 1e-20) - 1) as Hl.
  { rewrite <- ln_Rinv by lra. apply ln_le_sub1, Rinv_0_lt_compat. lra. }
  assert ((1 - 1e-20) * - ln (1 - 1e-20)
          <= (1 - 1e-20) * (/ (1 - 1e-20) - 1)) as Hm
    by (apply Rmult_le_compat_l; lra).
  assert ((1 - 1e-20) * (/ (1 - 1e-20) - 1) = 1e-20) as He by (field; lra).
  nra.
Qed.

(** *** The score at 0.5 and at the guard value *)

Lemma uncertainty_half : uncertainty 2 0.5 = 1.
Proof.
  rewrite uncertainty_inside by lra. unfold entropy.
  replace (1 - 0.5) with 0.5 by lra. replace (1 / 2) with 0.5 by lra.
  pose proof (ln_neg 0.5 ltac:(lra)). set (l := ln 0.5) in *.
  replace (0.5 * l + 0.5 * l) with l by lra. apply Rinv_r. lra.
Qed.

Lemma uncertainty_tiny C :
  (2 ≤ Z.pos C)%Z → 0 < uncertainty C 1e-20 < 1e-17.
Proof.
  intros HC. rewrite uncertainty_inside by lra.
  pose proof (ln_classes C HC) as Hd. pose proof entropy_tiny as [He1 He2].
  set (d := ln (1 / IZR (Z.pos C))) in *. set (e := entropy 1e-20) in *.
  assert (/ d < 0) as Hinv by (apply Rinv_lt_0_compat; lra).
  assert (d * / d = 1) as Hone by (apply Rinv_r; lra).
  assert (- 2 < / d) as Hinv2 by nra.
  unfold Rdiv. split; nra.
Qed.

End Entropy.

(** ** Runs on concrete streams *)

Section Stepping.
Context {F : Type} `{Float F}.
Implicit Types (cfg : config F) (bp : list (list F)) (tb : tables F).


Lemma traced_visit_eq cfg bp loop source pos tb i nu row prob :
  bp !! i = Some row → row !! 0 = Some prob →
  traced_visit cfg bp loop source pos (tb, i, nu)
  = if resolves cfg prob loop then
      probs' ← store (probs tb) pos row;
      sources' ← store (sources tb) pos source;
      Ok (Tables probs' sources', S i, nu, Event pos i loop true)
    else Ok (tb, S i, nu ++ [pos], Event pos i loop false).
Proof.
  intros Hrow Hprob. unfold traced_visit, index. rewrite Hrow. simpl.
  rewrite Hprob. reflexivity.
Qed.

Lemma traced_raise cfg bp e :
  traced_permutate cfg bp = Raise e →
  GetPredictOutputs._permutate cfg bp = Raise e ∧
  GetScoreOutputs._permutate cfg bp = Raise e.
Proof.
  intros Hr. assert (GetPredictOutputs._permutate cfg bp = Raise e) as Hp
    by (by rewrite <- permutate_erase, Hr).
  split; [done|]. etrans; [apply permutate_agree|done].
Qed.

End Stepping.

Section Concrete.
Local Open Scope R_scope.

(** With two labels and threshold 0.1, the vector [(0.5, 0.5)] never exits
    before the last iteration: its uncertainty is 1. *)
Lemma resolves_undecided (cfg : config R) loop :
  label_size cfg = 2%positive → _speed cfg = 0.1 →
  Z.of_nat loop ≠ (max_loop cfg - 1)%Z →
  resolves cfg 0.5 loop = false.
Proof.
  intros HC Hs Hl. unfold resolves.
  rewrite uncertainty_cfg, HC, Hs, uncertainty_half.
  rewrite (bool_decide_eq_false_2 _ Hl).
  assert (f_lt 1 0.1 = false) as -> by (apply Rltb_false; lra). done.
Qed.

(** Evaluates the next visit of a run over undecided vectors. *)
Ltac run_visit :=
  erewrite traced_visit_eq by reflexivity;
  first [ rewrite resolves_undecided
            by first [reflexivity | (unfold max_loop; simpl; lia)]
        | rewrite resolves_last by reflexivity ].

(** One device, one example, two kept heads: the example is carried over at
    head 1 and resolved at head 2, and two vectors are consumed. *)
Lemma shard_one :
  traced_shard cfg_one_gpu (undecided 2) (zeros cfg_one_gpu) 0
  = Ok (Tables [[0.5; 0.5]] [2%Z], 2%nat, [],
        [Event 0 0 0 false; Event 0 1 1 true]).
Proof.
  unfold traced_shard.
  change (Z.to_nat (max_loop cfg_one_gpu)) with 2%nat.
  change (map (fun k => (k + 0)%nat) (seq 0 (d_batch_size cfg_one_gpu)))
    with [0%nat].
  cbn [traced_loops].
  change (index (keep_cls cfg_one_gpu) 0) with (Ok (A:=Z) 1%Z).
  change (index (keep_cls cfg_one_gpu) 1) with (Ok (A:=Z) 2%Z).
  cbn [mbind result_bind traced_inner]. run_visit.
  cbn [mbind result_bind traced_inner app]. run_visit.
  reflexivity.
Qed.

Lemma devices_one :
  traced_devices cfg_one_gpu (undecided 2) (n_device cfg_one_gpu)
    (zeros cfg_one_gpu) 0
  = Ok (Tables [[0.5; 0.5]] [2%Z], 2%nat,
        [Event 0 0 0 false; Event 0 1 1 true]).
Proof.
  cbn [n_device cfg_one_gpu _gpu_ids length Nat.max traced_devices].
  rewrite shard_one. reflexivity.
Qed.

Lemma run_one :
  traced_permutate cfg_one_gpu (undecided 2)
  = Ok ([[0.5; 0.5]], [2%Z], [Event 0 0 0 false; Event 0 1 1 true]).
Proof. unfold traced_permutate. rewrite devices_one. reflexivity. Qed.

(** Two devices, one example each.  The first shard consumes two vectors,
    so the second starts from row 2 of a table of two rows. *)
Lemma shard_two_first :
  traced_shard cfg_two_gpus (undecided 4) (zeros cfg_two_gpus) 0
  = Ok (Tables [[0.5; 0.5]; [0; 0]] [2%Z; 0%Z], 2%nat, [],
        [Event 0 0 0 false; Event 0 1 1 true]).
Proof.
  unfold traced_shard.
  change (Z.to_nat (max_loop cfg_two_gpus)) with 2%nat.
  change (map (fun k => (k + 0)%nat) (seq 0 (d_batch_size cfg_two_gpus)))
    with [0%nat].
  cbn [traced_loops].
  change (index (keep_cls cfg_two_gpus) 0) with (Ok (A:=Z) 1%Z).
  change (index (keep_cls cfg_two_gpus) 1) with (Ok (A:=Z) 2%Z).
  cbn [mbind result_bind traced_inner]. run_visit.
  cbn [mbind result_bind traced_inner app]. run_visit.
  reflexivity.
Qed.

Lemma shard_two_second tb :
  length (probs tb) = 2%nat →
  traced_shard cfg_two_gpus (undecided 4) tb 2 = Raise IndexError.
Proof.
  intros Hlen. unfold traced_shard.
  change (Z.to_nat (max_loop cfg_two_gpus)) with 2%nat.
  change (map (fun k => (k + 2)%nat) (seq 0 (d_batch_size cfg_two_gpus)))
    with [2%nat].
  cbn [traced_loops].
  change (index (keep_cls cfg_two_gpus) 0) with (Ok (A:=Z) 1%Z).
  change (index (keep_cls cfg_two_gpus) 1) with (Ok (A:=Z) 2%Z).
  cbn [mbind result_bind traced_inner]. run_visit.
  cbn [mbind result_bind traced_inner app]. run_visit.
  unfold store. rewrite Hlen. reflexivity.
Qed.

Lemma run_two : traced_permutate cfg_two_gpus (undecided 4) = Raise IndexError.
Proof.
  unfold traced_permutate.
  cbn [n_device cfg_two_gpus _gpu_ids length Nat.max traced_devices].
  rewrite shard_two_first. cbn [mbind result_bind].
  rewrite shard_two_second by reflexivity. reflexivity.
Qed.

(** C1, where the code leaves it.  Two devices, a batch of two examples,
    heads 1 and 2 kept, and a stream of four vectors none of which exits
    early: the first shard consumes two vectors, the second shard therefore
    addresses row 2 of tables that have rows 0 and 1, and the call raises
    [IndexError] on both paths instead of filling rows 0 and 1. *)
Theorem two_devices_index_error :
  n_device cfg_two_gpus = 2%nat ∧ batch_size cfg_two_gpus = 2%nat ∧
  keep_cls cfg_two_gpus = [1%Z; 2%Z] ∧
  GetPredictOutputs._permutate cfg_two_gpus (undecided 4) = Raise IndexError ∧
  GetScoreOutputs._permutate cfg_two_gpus (undecided 4) = Raise IndexError.
Proof.
  split_and!; try reflexivity; apply traced_raise, run_two.
Qed.

(** C8 as stated fails: a shard of one example that is carried over once
    makes one visit in each of its two iterations, so the lengths of its
    unfinished sets sum to 2, and it consumes 2 vectors, not 1. *)
Lemma shard_consumes_more_than_its_size :
  ∃ tb' evs,
    traced_shard cfg_one_gpu (undecided 2) (zeros cfg_one_gpu) 0
    = Ok (tb', 2%nat, [], evs) ∧
    length (filter (fun ev => ev_loop ev = 0%nat) evs) = 1%nat ∧
    length (filter (fun ev => ev_loop ev = 1%nat) evs) = 1%nat ∧
    length evs = 2%nat ∧
    d_batch_size cfg_one_gpu = 1%nat.
Proof. eexists _, _. split; [apply shard_one|]. split_and!; reflexivity. Qed.

Lemma cfg_all_ignored_covers h :
  (0 ≤ h ≤ Z.of_nat (num_hidden_layers cfg_all_ignored))%Z →
  h ∈ _ignore_cls cfg_all_ignored.
Proof.
  intros Hh. simpl in *.
  assert (h = 0 ∨ h = 1)%Z as [-> | ->] by lia; [left|right; left].
Qed.

(** C9 as stated fails: with both heads of a one-layer model ignored, the
    call on an empty stream returns tables of zeros, and on a non-empty
    stream the exception is the [AssertionError] of the final count check. *)
Lemma all_ignored_returns :
  (∀ h, (0 ≤ h ≤ Z.of_nat (num_hidden_layers cfg_all_ignored))%Z →
        h ∈ _ignore_cls cfg_all_ignored) ∧
  GetPredictOutputs._permutate cfg_all_ignored []
  = Ok ([[0; 0]; [0; 0]], [0%Z; 0%Z]) ∧
  GetPredictOutputs._permutate cfg_all_ignored (undecided 2)
  = Raise AssertionError.
Proof.
  split_and!; [apply cfg_all_ignored_covers|reflexivity|reflexivity].
Qed.

(** *** The argument of the score *)



Lemma top_prob_example : top_prob [0; 0.5; 0.5] = 0.5.
Proof.
  unfold top_prob. simpl. unfold Rmax.
  repeat (destruct (Rle_dec _ _); try lra).
Qed.

(** With three labels the score of 0 is below the threshold 0.1 and the
    score of 0.5 is not. *)
Lemma three_labels_scores :
  uncertainty 3 0 < 0.1 ∧ 0.1 <= uncertainty 3 0.5.
Proof.
  split.
  - rewrite uncertainty_outside by (left; lra).
    rewrite <- (uncertainty_inside 3 1e-20) by lra.
    pose proof (uncertainty_tiny 3 ltac:(lia)). lra.
  - rewrite uncertainty_inside by lra. unfold entropy.
    replace (1 - 0.5) with 0.5 by lra. replace 0.5 with (/ 2) at 2 4 by lra.
    unfold Rdiv at 1 2. rewrite Rmult_1_l, !ln_Rinv by lra.
    pose proof ln_lt_2. pose proof (ln_le_sub1 3 ltac:(lra)).
    assert (0 < ln 3) as H3 by (rewrite <- ln_1; apply ln_increasing; lra).
    set (a := ln 2) in *. set (b := ln 3) in *.
    replace (0.5 * - a + 0.5 * - a) with (- a) by lra.
    apply Rmult_le_reg_r with b; [done|].
    replace (- a * / - b * b) with a by (field; lra). nra.
Qed.

(** C2 as stated fails when the uncertainty of an example is that of its
    top-class probability, as the specification computes it: with three
    labels, two iterations and the stream [(0, 0.5, 0.5)], [_permutate]
    resolves the example at the first iteration, with source 1, although the
    uncertainty of the top-class probability 0.5 is not below the threshold
    and the iteration is not the last one. *)
Lemma cascade_not_by_top_class :
  traced_permutate cfg_three_labels [[0; 0.5; 0.5]]
  = Ok ([[0; 0.5; 0.5]], [1%Z], [Event 0 0 0 true]) ∧
  GetPredictOutputs._permutate cfg_three_labels [[0; 0.5; 0.5]]
  = Ok ([[0; 0.5; 0.5]], [1%Z]) ∧
  f_lt (GetPredictOutputs._uncertainty cfg_three_labels
          (top_prob [0; 0.5; 0.5])) (_speed cfg_three_labels) = false ∧
  Z.of_nat 0 ≠ (max_loop cfg_three_labels - 1)%Z.
Proof.
  destruct three_labels_scores as [Hlow Hhigh].
  assert (traced_permutate cfg_three_labels [[0; 0.5; 0.5]]
          = Ok ([[0; 0.5; 0.5]], [1%Z], [Event 0 0 0 true])) as Hrun.
  { unfold traced_permutate.
    cbn [n_device cfg_three_labels _gpu_ids length Nat.max traced_devices].
    unfold traced_shard.
    change (Z.to_nat (max_loop cfg_three_labels)) with 2%nat.
    change (map (fun k => (k + 0)%nat) (seq 0 (d_batch_size cfg_three_labels)))
      with [0%nat].
    cbn [traced_loops].
    change (index (keep_cls cfg_three_labels) 0) with (Ok (A:=Z) 1%Z).
    change (index (keep_cls cfg_three_labels) 1) with (Ok (A:=Z) 2%Z).
    cbn [mbind result_bind traced_inner].
    erewrite traced_visit_eq by reflexivity.
    unfold resolves. rewrite uncertainty_cfg.
    assert (f_lt (uncertainty (label_size cfg_three_labels) 0)
                 (_speed cfg_three_labels) = true) as ->
      by (by apply Rltb_true).
    reflexivity. }
  split_and!.
  - exact Hrun.
  - rewrite <- permutate_erase, Hrun. reflexivity.
  - rewrite top_prob_example, uncertainty_cfg. by apply Rltb_false.
  - unfold max_loop. simpl. lia.
Qed.



(** *** The theorems at concrete inputs *)

Lemma cascade_rule_witness :
  ∃ s, [2%Z] !! ev_pos (Event 0 1 1 true) = Some s ∧ s ∈ keep_cls cfg_one_gpu.
Proof.
  refine (proj2 (proj2 (cascade_rule cfg_one_gpu (undecided 2) _ _ _
                          (Event 0 1 1 true) devices_one _)) eq_refl).
  right; left.
Defined.


Lemma ignore_set_effect_witness :
  (max_loop cfg_two_ignored < max_loop cfg_one_gpu)%Z ∧
  keep_cls cfg_two_ignored `sublist_of` keep_cls cfg_one_gpu.
Proof.
  destruct (ignore_set_effect cfg_one_gpu cfg_two_ignored)
    as (_ & _ & _ & _ & Hlt & _ & Hsub).
  - reflexivity.
  - apply (bool_decide_unpack _). reflexivity.
  - apply (bool_decide_unpack _). reflexivity.
  - simpl. intros h Hh. apply elem_of_cons in Hh as [->|Hh]; [lia|].
    apply elem_of_cons in Hh as [->|Hh]; [lia|]. by apply elem_of_nil in Hh.
  - simpl. intros h Hh. apply elem_of_cons in Hh as [->|Hh]; [left|].
    by apply elem_of_nil in Hh.
  - split; [|exact Hsub]. apply Hlt. exists 1%Z. split; [right; left|].
    simpl. intros Hin. apply elem_of_cons in Hin as [Heq|Hin]; [lia|].
    by apply elem_of_nil in Hin.
Defined.

Lemma shard_stream_length_witness :
  length (written [Event 0 0 0 false; Event 0 1 1 true])
  = d_batch_size cfg_one_gpu ∧
  length [Event 0 0 0 false; Event 0 1 1 true]
  = (d_batch_size cfg_one_gpu
     + length (carried [Event 0 0 0 false; Event 0 1 1 true]))%nat.
Proof.
  destruct (shard_stream_length cfg_one_gpu (undecided 2) (zeros cfg_one_gpu)
              0 _ _ _ _ (zeros_rows cfg_one_gpu)
              ltac:(unfold max_loop; simpl; lia) shard_one)
    as (_ & Hw & _ & Hc & _).
  split; [exact Hw|exact Hc].
Defined.

Lemma all_heads_ignored_witness :
  (max_loop cfg_all_ignored ≤ 0)%Z ∧ keep_cls cfg_all_ignored = [].
Proof.
  destruct (all_heads_ignored cfg_all_ignored [] cfg_all_ignored_covers)
    as (Hml & Hk & _).
  split; [exact Hml|exact Hk].
Defined.

End Concrete.

(** * Further results on the code around the claims *)

(** ** Inference settings and batch size *)

Section Settings.
Context {F M : Type}.
Implicit Types (cfg : config F) (self : classifier F M).

Lemma settings_stored (ne : F → F → bool) ignore_cls speed self :
  let self' := set_inference_settings ne ignore_cls speed self in
  _ignore_cls (attrs self') = ignore_cls ∧
  _speed (attrs self')
  = (if ne speed (_speed (attrs self)) then speed else _speed (attrs self)).
Proof.
  unfold set_inference_settings.
  destruct (bool_decide_reflect (ignore_cls ≠ _ignore_cls (attrs self)))
    as [Hne|Heq]; simpl.
  - destruct (ne speed (_speed (attrs self))); simpl; split_and!; done.
  - apply dec_stable in Heq.
    destruct (ne speed (_speed (attrs self))); simpl; split_and!; done.
Qed.

(** After the opening of [predict], [score] or [export] the stored
    ignore list is the one passed; the stored speed is the one passed if
    [!=] told them apart and the old one if not; no other attribute changes;
    and [_graph_mode] is cleared exactly when the ignore list or the speed
    was found different, and is otherwise left as it was. *)
Lemma settings_effect (ne : F → F → bool) ignore_cls speed self :
  let self' := set_inference_settings ne ignore_cls speed self in
  _ignore_cls (attrs self') = ignore_cls ∧
  _speed (attrs self')
  = (if ne speed (_speed (attrs self)) then speed else _speed (attrs self)) ∧
  label_size (attrs self') = label_size (attrs self) ∧
  num_hidden_layers (attrs self') = num_hidden_layers (attrs self) ∧
  _gpu_ids (attrs self') = _gpu_ids (attrs self) ∧
  batch_size (attrs self') = batch_size (attrs self) ∧
  _graph_mode self'
  = (if bool_decide (ignore_cls ≠ _ignore_cls (attrs self))
        || ne speed (_speed (attrs self))
     then None else _graph_mode self).
Proof.
  unfold set_inference_settings.
  destruct (bool_decide_reflect (ignore_cls ≠ _ignore_cls (attrs self)))
    as [Hne|Heq]; simpl.
  - destruct (ne speed (_speed (attrs self))); simpl; split_and!; done.
  - apply dec_stable in Heq.
    destruct (ne speed (_speed (attrs self))); simpl; split_and!; done.
Qed.

(** X1.  For a speed that [!=] does not tell apart from itself and that is
    stored when it differs, a second call with the same ignore list and
    speed changes nothing: whatever graph mode was built after the first
    call is kept. *)
Theorem settings_repeat (ne : F → F → bool) ignore_cls speed self (m : option M) :
  ne speed speed = false →
  (ne speed (_speed (attrs self)) = false → _speed (attrs self) = speed) →
  let self' := set_inference_settings ne ignore_cls speed self in
  set_inference_settings ne ignore_cls speed (Classifier (attrs self') m)
  = Classifier (attrs self') m.
Proof.
  intros Hrefl Hsame self'.
  destruct (settings_stored ne ignore_cls speed self) as [Hig Hsp].
  fold self' in Hig, Hsp.
  assert (_speed (attrs self') = speed) as Hsp'.
  { rewrite Hsp. destruct (ne speed (_speed (attrs self))); auto. }
  unfold set_inference_settings. simpl. rewrite Hig.
  rewrite bool_decide_eq_false_2 by (intros Hne; by apply Hne).
  simpl. by rewrite Hsp', Hrefl.
Qed.

(** X2.  The batch size that [convert] leaves.  It is changed only when
    [X] or [X_tokenized] is a non-empty list; no other attribute is touched,
    and converting again with the same arguments changes nothing.  It never
    exceeds the larger of the old batch size and the number of GPUs; when the
    old batch size was at least the number of GPUs it does not grow and stays
    at least that number.  When [X] or [X_tokenized] is non-empty and there
    are at least as many inputs as GPUs, it is the smaller of the number of
    inputs and the old batch size.  When the old batch size was at least one
    and at least the number of GPUs, and the inputs, if any were given, are
    at least one, every device keeps at least one example. *)
Theorem convert_batch_size_bounds {A} (X X_tokenized : option (list A))
  (n_inputs : nat) cfg :
  let cfg' := convert_batch_size X X_tokenized n_inputs cfg in
  convert_batch_size X X_tokenized n_inputs cfg' = cfg' ∧
  (truthy X || truthy X_tokenized = false → cfg' = cfg) ∧
  label_size cfg' = label_size cfg ∧
  num_hidden_layers cfg' = num_hidden_layers cfg ∧
  _ignore_cls cfg' = _ignore_cls cfg ∧ _speed cfg' = _speed cfg ∧
  _gpu_ids cfg' = _gpu_ids cfg ∧
  batch_size cfg' ≤ Nat.max (batch_size cfg) (length (_gpu_ids cfg)) ∧
  (length (_gpu_ids cfg) ≤ batch_size cfg →
   length (_gpu_ids cfg) ≤ batch_size cfg' ≤ batch_size cfg) ∧
  (truthy X || truthy X_tokenized = true →
   length (_gpu_ids cfg) ≤ n_inputs →
   batch_size cfg' = Nat.min n_inputs (batch_size cfg)) ∧
  (1 ≤ batch_size cfg → length (_gpu_ids cfg) ≤ batch_size cfg →
   (truthy X || truthy X_tokenized = true → 1 ≤ n_inputs) →
   1 ≤ d_batch_size cfg').
Proof.
  intros cfg'. subst cfg'. unfold convert_batch_size.
  destruct (truthy X || truthy X_tokenized) eqn:Hgiven.
  - destruct (decide (n_inputs < batch_size cfg)) as [Hlt|Hge].
    + split_and!; simpl; try done; try lia.
      * destruct (decide (n_inputs < _)) as [Hlt'|Hge']; [|done].
        unfold with_batch_size. simpl. done.
      * intros Hb Hg Hn. specialize (Hn eq_refl).
        unfold d_batch_size, n_device. simpl.
        apply Nat.div_str_pos. lia.
    + rewrite decide_False by done. split_and!; try done; try lia.
      intros Hb Hg Hn. unfold d_batch_size, n_device.
      apply Nat.div_str_pos. lia.
  - split_and!; try done; try lia.
    intros Hb Hg _. unfold d_batch_size, n_device.
    apply Nat.div_str_pos. lia.
Qed.

End Settings.

(** ** More on the cascade *)

Section MoreCascade.
Context {F : Type} `{Float F}.
Implicit Types (cfg : config F) (bp : list (list F)) (tb : tables F).
Implicit Types (ev : event) (evs : list event).

Lemma lookup_repeat {A} (x : A) (n k : nat) : k < n → repeat x n !! k = Some x.
Proof.
  revert k. induction n as [|n IH]; intros k Hk; [lia|].
  destruct k as [|k]; simpl; [done|]. apply IH. lia.
Qed.

Lemma traced_permutate_inv cfg bp pr sr evs :
  traced_permutate cfg bp = Ok (pr, sr, evs) →
  ∃ tb, traced_devices cfg bp (n_device cfg) (zeros cfg) 0
        = Ok (tb, length bp, evs) ∧ pr = probs tb ∧ sr = sources tb.
Proof.
  intros Hrun. unfold traced_permutate in Hrun.
  apply bind_Ok in Hrun as ([[tb i] evs0] & Hdev & Hrun).
  destruct (decide (i = length bp)) as [->|]; [|discriminate].
  injection Hrun as <- <- <-. eauto.
Qed.

Lemma written_elem evs pos :
  pos ∈ written evs ↔ ∃ ev, ev ∈ evs ∧ ev_resolved ev = true ∧ ev_pos ev = pos.
Proof.
  unfold written. rewrite list_elem_of_fmap. split.
  - intros (ev & -> & Hev). apply list_elem_of_filter in Hev as [Hres Hev]. eauto.
  - intros (ev & Hev & Hres & <-). exists ev. split; [done|].
    by apply list_elem_of_filter.
Qed.

Lemma permutate_lengths cfg bp pr sr evs :
  traced_permutate cfg bp = Ok (pr, sr, evs) →
  length pr = batch_size cfg ∧ length sr = batch_size cfg.
Proof.
  intros Hrun. apply traced_permutate_inv in Hrun as (tb & Hdev & -> & ->).
  pose proof (zeros_rows cfg) as Hr.
  destruct (traced_devices_spec _ _ _ _ _ _ _ _ _ Hr Hdev) as (_ & _ & -> & _).
  apply (replay_rows cfg bp evs _ _ Hr).
Qed.

(** On one device every row returned was written by a resolving visit. *)
Lemma single_device_rows cfg bp pr sr evs pos :
  length (_gpu_ids cfg) ≤ 1 → (1 ≤ max_loop cfg)%Z →
  traced_permutate cfg bp = Ok (pr, sr, evs) →
  pos < batch_size cfg →
  ∃ ev, ev ∈ evs ∧ ev_resolved ev = true ∧ ev_pos ev = pos ∧
        pr !! pos = bp !! ev_idx ev ∧ sr !! pos = keep_cls cfg !! ev_loop ev.
Proof.
  intros Hg Hml Hrun Hpos.
  destruct (coverage_single_device _ _ _ _ _ Hg Hml Hrun) as [Hperm Hrows].
  assert (pos ∈ written evs) as Hw by (rewrite Hperm; apply elem_of_seq; lia).
  apply written_elem in Hw as (ev & Hev & Hres & <-).
  destruct (Hrows ev Hev Hres) as [Hp Hs]. eauto 10.
Qed.

(** X3.  Whenever [_permutate] returns, for any number of devices, both
    tables have [batch_size] rows, every row written lies inside them, and a
    row that no visit wrote still holds the zeros of [np.zeros] and the
    source 0. *)
Theorem permutate_shape cfg bp pr sr evs :
  traced_permutate cfg bp = Ok (pr, sr, evs) →
  length pr = batch_size cfg ∧ length sr = batch_size cfg ∧
  Forall (fun pos => pos < batch_size cfg) (written evs) ∧
  ∀ pos, pos < batch_size cfg → pos ∉ written evs →
    pr !! pos = Some (repeat f_zero (Pos.to_nat (label_size cfg))) ∧
    sr !! pos = Some 0%Z.
Proof.
  intros Hrun. apply traced_permutate_inv in Hrun as (tb & Hdev & -> & ->).
  pose proof (zeros_rows cfg) as Hr.
  destruct (traced_devices_spec _ _ _ _ _ _ _ _ _ Hr Hdev) as (_ & Hoks & -> & _).
  destruct (replay_rows cfg bp evs _ _ Hr) as [Hp Hs].
  split_and!; auto.
  - apply Forall_forall. intros pos Hpos.
    apply written_elem in Hpos as (ev & Hev & Hres & <-).
    rewrite Forall_forall in Hoks. by apply (Hoks ev Hev).
  - intros pos Hlt Hpos.
    destruct (replay_untouched cfg bp evs (zeros cfg) pos Hpos) as [-> ->].
    simpl. split; by apply lookup_repeat.
Qed.

(** X4.  On one device and with [max_loop >= 1], what [_permutate] returns
    has [batch_size] rows; every probability row is a vector of the stream,
    and every source is an element of [keep_cls]: a head of [0..L] outside
    the ignore list.  The same holds on the scoring path. *)
Theorem single_device_outputs cfg bp pr sr :
  length (_gpu_ids cfg) ≤ 1 → (1 ≤ max_loop cfg)%Z →
  GetPredictOutputs._permutate cfg bp = Ok (pr, sr) →
  GetScoreOutputs._permutate cfg bp = Ok (pr, sr) ∧
  length pr = batch_size cfg ∧ length sr = batch_size cfg ∧
  Forall (fun row => row ∈ bp) pr ∧
  Forall (fun s => s ∈ keep_cls cfg ∧
                   (0 ≤ s ≤ Z.of_nat (num_hidden_layers cfg))%Z ∧
                   s ∉ _ignore_cls cfg) sr.
Proof.
  intros Hg Hml Hrun.
  split; [etrans; [apply permutate_agree|done]|].
  apply permutate_traced in Hrun as [evs Hrun].
  destruct (permutate_lengths _ _ _ _ _ Hrun) as [Hlp Hls].
  split_and!; [done|done| |].
  - apply Forall_lookup. intros pos row Hrow.
    destruct (single_device_rows _ _ _ _ _ pos Hg Hml Hrun)
      as (ev & _ & _ & _ & Hp & _).
    { apply lookup_lt_Some in Hrow. lia. }
    rewrite Hrow in Hp. eapply list_elem_of_lookup_2; eauto.
  - apply Forall_lookup. intros pos s Hs.
    destruct (single_device_rows _ _ _ _ _ pos Hg Hml Hrun)
      as (ev & _ & _ & _ & _ & Hsrc).
    { apply lookup_lt_Some in Hs. lia. }
    rewrite Hs in Hsrc.
    assert (s ∈ keep_cls cfg) as Hk by (eapply list_elem_of_lookup_2; eauto).
    split; [done|]. by apply keep_cls_elem.
Qed.

Lemma carried_elem evs pos :
  pos ∈ carried evs ↔ ∃ ev, ev ∈ evs ∧ ev_resolved ev = false ∧ ev_pos ev = pos.
Proof.
  unfold carried. rewrite list_elem_of_fmap. split.
  - intros (ev & -> & Hev). apply list_elem_of_filter in Hev as [Hres Hev]. eauto.
  - intros (ev & Hev & Hres & <-). exists ev. split; [done|].
    by apply list_elem_of_filter.
Qed.

(** The cascade of a shard visits rows of the shard only. *)
Lemma traced_loops_positions cfg bp n loop tb i unfinished st' evs rows ev :
  table_rows tb rows →
  traced_loops cfg bp n loop tb i unfinished = Ok (st', evs) →
  ev ∈ evs → ev_pos ev ∈ unfinished.
Proof.
  revert loop tb i unfinished st' evs.
  induction n as [|n IH]; intros loop tb i unfinished st' evs Hr Hl Hev;
    simpl in Hl.
  - injection Hl as <- <-. by apply elem_of_nil in Hev.
  - apply bind_Ok in Hl as (source & Hsrc & Hl). apply index_Ok in Hsrc.
    apply bind_Ok in Hl as ([[[tb1 i1] nu1] evs1] & Hin & Hl).
    apply bind_Ok in Hl as ([st2 evs2] & Hrec & Hl).
    injection Hl as <- <-.
    destruct (traced_inner_spec _ _ _ _ _ _ _ _ _ _ _ _ _ Hsrc Hr Hin)
      as (Hps & _ & _ & _ & -> & -> & ->).
    rewrite <- Hps. apply elem_of_app in Hev as [Hev|Hev].
    + apply list_elem_of_fmap. eauto.
    + eapply IH in Hev; [| |exact Hrec]; [|by apply replay_rows].
      simpl in Hev. apply carried_elem in Hev as (e & He & _ & <-).
      apply list_elem_of_fmap. eauto.
Qed.

(** A visit of iteration [ev_loop ev] was preceded, at every earlier
    iteration of its shard, by a visit of the same row that carried it
    over, on a vector that comes earlier in the stream. *)
Lemma traced_loops_earlier cfg bp n loop tb i unfinished st' evs rows ev l :
  table_rows tb rows →
  traced_loops cfg bp n loop tb i unfinished = Ok (st', evs) →
  ev ∈ evs → loop ≤ l < ev_loop ev →
  ∃ ev', ev' ∈ evs ∧ ev_pos ev' = ev_pos ev ∧ ev_loop ev' = l ∧
         ev_resolved ev' = false ∧ ev_idx ev' < ev_idx ev.
Proof.
  revert loop tb i unfinished st' evs.
  induction n as [|n IH]; intros loop tb i unfinished st' evs Hr Hl Hev Hlt;
    simpl in Hl.
  - injection Hl as <- <-. by apply elem_of_nil in Hev.
  - apply bind_Ok in Hl as (source & Hsrc & Hl). apply index_Ok in Hsrc.
    apply bind_Ok in Hl as ([[[tb1 i1] nu1] evs1] & Hin & Hl).
    apply bind_Ok in Hl as ([[[tb2 i2] nu2] evs2] & Hrec & Hl).
    injection Hl as <- <-.
    destruct (traced_inner_spec _ _ _ _ _ _ _ _ _ _ _ _ _ Hsrc Hr Hin)
      as (Hps & Hids & Hlps & Hoks & -> & -> & ->).
    assert (table_rows (replay cfg bp evs1 tb) rows) as Hr1
      by (by apply replay_rows).
    destruct (traced_loops_spec _ _ _ _ _ _ _ _ _ _ _ _ Hr1 Hrec)
      as (Hids2 & _).
    rewrite Forall_forall in Hlps.
    apply elem_of_app in Hev as [Hev|Hev].
    { rewrite (Hlps ev Hev) in Hlt. lia. }
    destruct (decide (l = loop)) as [->|Hne].
    + pose proof (traced_loops_positions _ _ _ _ _ _ _ _ _ _ _ Hr1 Hrec Hev)
        as Hpos.
      simpl in Hpos. apply carried_elem in Hpos as (e & He & Hres & Hpe).
      exists e. split_and!; auto.
      * apply elem_of_app. auto.
      * assert (ev_idx e ∈ seq i (length evs1)) as Hi1
          by (rewrite <- Hids; apply list_elem_of_fmap; eauto).
        assert (ev_idx ev ∈ seq (i + length evs1) (length evs2)) as Hi2
          by (rewrite <- Hids2; apply list_elem_of_fmap; eauto).
        apply elem_of_seq in Hi1, Hi2. lia.
    + destruct (IH _ _ _ _ _ _ Hr1 Hrec Hev ltac:(lia))
        as (ev' & Hev' & Hrest).
      exists ev'. split; [|done]. apply elem_of_app. auto.
Qed.

(** X5.  The source of an example is the earliest head that accepted it.
    When the loops of [_permutate] run to their end, for any number of
    devices, a visit made at iteration [l] comes after a visit of the same
    row at every iteration before [l]; each of those consumed an earlier
    vector of the stream, was not the last iteration, found the uncertainty
    of its vector not below the threshold, and carried the row over. *)
Theorem earliest_accepting_head cfg bp tb i evs ev l :
  traced_devices cfg bp (n_device cfg) (zeros cfg) 0 = Ok (tb, i, evs) →
  ev ∈ evs → l < ev_loop ev →
  ∃ ev' row prob,
    ev' ∈ evs ∧ ev_pos ev' = ev_pos ev ∧ ev_loop ev' = l ∧
    ev_idx ev' < ev_idx ev ∧ ev_resolved ev' = false ∧
    bp !! ev_idx ev' = Some row ∧ row !! 0 = Some prob ∧
    f_lt (GetPredictOutputs._uncertainty cfg prob) (_speed cfg) = false ∧
    Z.of_nat l ≠ (max_loop cfg - 1)%Z.
Proof.
  intros Hdev Hev Hl. pose proof (zeros_rows cfg) as Hr.
  destruct (traced_devices_spec _ _ _ _ _ _ _ _ _ Hr Hdev) as (_ & Hoks & _).
  assert (∃ ev', ev' ∈ evs ∧ ev_pos ev' = ev_pos ev ∧ ev_loop ev' = l ∧
                 ev_resolved ev' = false ∧ ev_idx ev' < ev_idx ev)
    as (ev' & Hev' & Hpos & Hloop & Hres & Hidx).
  { clear Hoks. revert Hdev Hr. generalize (zeros cfg) (batch_size cfg) 0.
    generalize (n_device cfg). intros n. revert tb i evs Hev.
    induction n as [|n IH]; intros tb i evs Hev tb0 rows i0 Hdev Hr;
      simpl in Hdev.
    - injection Hdev as <- <- <-. by apply elem_of_nil in Hev.
    - apply bind_Ok in Hdev as ([[[tb1 i1] nu1] evs1] & Hsh & Hdev).
      apply bind_Ok in Hdev as ([[tb2 i2] evs2] & Hrec & Hdev).
      injection Hdev as <- <- <-.
      apply elem_of_app in Hev as [Hev|Hev].
      + destruct (traced_loops_earlier _ _ _ _ _ _ _ _ _ _ ev l Hr Hsh Hev
                    ltac:(lia)) as (ev' & Hev' & Hrest).
        exists ev'. split; [|done]. apply elem_of_app. auto.
      + destruct (traced_loops_spec _ _ _ _ _ _ _ _ _ _ _ _ Hr Hsh)
          as (_ & _ & _ & -> & _).
        destruct (IH _ _ _ Hev _ rows _ Hrec ltac:(by apply replay_rows))
          as (ev' & Hev' & Hrest).
        exists ev'. split; [|done]. apply elem_of_app. auto. }
  rewrite Forall_forall in Hoks.
  destruct (Hoks ev' Hev') as ((row & prob & Hrow & Hprob & Hdec) & _).
  rewrite Hres, Hloop in Hdec. symmetry in Hdec.
  unfold resolves in Hdec. apply orb_false_iff in Hdec as [Hlt Hlast].
  apply bool_decide_eq_false in Hlast.
  exists ev', row, prob. split_and!; auto.
Qed.

(** *** Iterations that treat all their rows alike *)

Lemma block_events_S loop p i m :
  block_events loop p i (S m)
  = Event p i loop true :: block_events loop (S p) (S i) m.
Proof.
  unfold block_events. simpl. rewrite !Nat.add_0_r. f_equal.
  rewrite <- fmap_S_seq, <- list_fmap_compose.
  apply list_fmap_ext. intros _ k _. simpl. f_equal; lia.
Qed.

Lemma written_block loop p i m : written (block_events loop p i m) = seq p m.
Proof.
  revert p i. induction m as [|m IH]; intros p i; [done|].
  rewrite block_events_S. unfold written in *. rewrite filter_cons. simpl.
  f_equal. apply IH.
Qed.

Lemma block_events_elem loop p i m k :
  k < m → Event (p + k) (i + k) loop true ∈ block_events loop p i m.
Proof.
  intros Hk. unfold block_events. apply list_elem_of_fmap.
  exists k. split; [done|]. apply elem_of_seq. lia.
Qed.

Lemma written_none evs :
  Forall (fun ev => ev_resolved ev = false) evs → written evs = [].
Proof.
  induction 1 as [|ev evs Hev _ IH]; [done|].
  unfold written in *. rewrite filter_cons, decide_False by congruence. done.
Qed.

Lemma block_decides_S cfg bp loop i m b :
  block_decides cfg bp loop i (S m) b →
  (∃ row prob, bp !! i = Some row ∧ row !! 0 = Some prob ∧
               resolves cfg prob loop = b) ∧
  block_decides cfg bp loop (S i) m b.
Proof.
  intros Hb. split.
  - destruct (Hb 0 ltac:(lia)) as (row & prob & Hrow & Hrest).
    rewrite Nat.add_0_r in Hrow. eauto.
  - intros k Hk. destruct (Hb (S k) ltac:(lia)) as (row & prob & Hrow & Hrest).
    replace (i + S k) with (S i + k) in Hrow by lia. eauto.
Qed.

(** An iteration in which every row is resolved. *)
Lemma traced_inner_all_pass cfg bp loop source m p i tb nu rows :
  keep_cls cfg !! loop = Some source →
  table_rows tb rows → p + m ≤ rows →
  block_decides cfg bp loop i m true →
  traced_inner cfg bp loop source (seq p m) (tb, i, nu)
  = Ok (replay cfg bp (block_events loop p i m) tb, i + m, nu,
        block_events loop p i m).
Proof.
  intros Hsrc. revert p i tb.
  induction m as [|m IH]; intros p i tb Hr Hp Hb.
  - simpl. by rewrite Nat.add_0_r.
  - apply block_decides_S in Hb as [(row & prob & Hrow & Hprob & Hres) Hb].
    cbn [seq traced_inner].
    rewrite (traced_visit_eq _ _ _ _ _ _ _ _ _ _ Hrow Hprob), Hres.
    destruct Hr as [Hlp Hls]. unfold store.
    rewrite !decide_True by lia. cbn [mbind result_bind].
    assert (Tables (<[p:=row]> (probs tb)) (<[p:=source]> (sources tb))
            = apply_event cfg bp tb (Event p i loop true)) as ->.
    { unfold apply_event. simpl. by rewrite Hrow, Hsrc. }
    rewrite IH; [| |lia|done].
    + cbn [mbind result_bind]. rewrite block_events_S. simpl.
      by replace (i + S m) with (S (i + m)) by lia.
    + apply apply_event_rows. by split.
Qed.

(** An iteration in which every row is carried over. *)
Lemma traced_inner_none_pass cfg bp loop source unfinished i tb nu :
  block_decides cfg bp loop i (length unfinished) false →
  ∃ evs,
    traced_inner cfg bp loop source unfinished (tb, i, nu)
    = Ok (tb, i + length unfinished, nu ++ unfinished, evs) ∧
    Forall (fun ev => ev_resolved ev = false) evs.
Proof.
  revert i nu. induction unfinished as [|pos rest IH]; intros i nu Hb.
  - exists []. simpl. by rewrite Nat.add_0_r, app_nil_r.
  - simpl in Hb.
    apply block_decides_S in Hb as [(row & prob & Hrow & Hprob & Hres) Hb].
    destruct (IH (S i) (nu ++ [pos]) Hb) as (evs & Hin & Hun).
    exists (Event pos i loop false :: evs). split; [|by constructor].
    cbn [traced_inner].
    rewrite (traced_visit_eq _ _ _ _ _ _ _ _ _ _ Hrow Hprob), Hres.
    cbn [mbind result_bind]. rewrite Hin. cbn [mbind result_bind].
    simpl. rewrite <- app_assoc. simpl.
    by replace (i + S (length rest)) with (S (i + length rest)) by lia.
Qed.

(** Iterations that find nothing unfinished. *)
Lemma traced_loops_empty cfg bp n loop tb i :
  loop + n ≤ length (keep_cls cfg) →
  traced_loops cfg bp n loop tb i [] = Ok (tb, i, [], []).
Proof.
  revert loop. induction n as [|n IH]; intros loop Hk; [done|].
  cbn [traced_loops].
  destruct (lookup_lt_is_Some_2 (keep_cls cfg) loop ltac:(lia)) as [source Hsrc].
  unfold index at 1. rewrite Hsrc. cbn [mbind result_bind traced_inner].
  rewrite IH by lia. done.
Qed.

(** [n] iterations that carry every row over, one that resolves every row,
    and [r] more that find nothing to do. *)
Lemma traced_loops_uniform cfg bp n r loop p m i tb rows :
  table_rows tb rows → p + m ≤ rows →
  loop + n + 1 + r ≤ length (keep_cls cfg) →
  (∀ j, j < n → block_decides cfg bp (loop + j) (i + j * m) m false) →
  block_decides cfg bp (loop + n) (i + n * m) m true →
  ∃ tb' evs,
    traced_loops cfg bp (n + 1 + r) loop tb i (seq p m)
    = Ok (tb', i + (n + 1) * m, [], evs) ∧
    written evs = seq p m ∧
    ∀ k, k < m → Event (p + k) (i + n * m + k) (loop + n) true ∈ evs.
Proof.
  intros Hr Hp. revert loop i.
  induction n as [|n IH]; intros loop i Hk Hnone Hall.
  - rewrite !Nat.add_0_r in Hall. simpl in Hall.
    destruct (lookup_lt_is_Some_2 (keep_cls cfg) loop ltac:(lia))
      as [source Hsrc].
    exists (replay cfg bp (block_events loop p i m) tb),
           (block_events loop p i m ++ []).
    split_and!.
    + cbn [Nat.add traced_loops]. unfold index at 1. rewrite Hsrc.
      cbn [mbind result_bind].
      rewrite (traced_inner_all_pass _ _ _ _ _ _ _ _ _ _ Hsrc Hr Hp Hall).
      cbn [mbind result_bind]. rewrite traced_loops_empty by lia.
      cbn [mbind result_bind]. do 4 f_equal. lia.
    + rewrite app_nil_r. apply written_block.
    + intros k Hk'. rewrite app_nil_r, !Nat.add_0_r. simpl.
      by apply block_events_elem.
  - destruct (lookup_lt_is_Some_2 (keep_cls cfg) loop ltac:(lia))
      as [source Hsrc].
    pose proof (Hnone 0 ltac:(lia)) as H0.
    rewrite Nat.add_0_r in H0. simpl in H0. rewrite Nat.add_0_r in H0.
    destruct (traced_inner_none_pass cfg bp loop source (seq p m) i tb [])
      as (evs1 & Hin & Hun); [by rewrite length_seq|].
    rewrite length_seq in Hin.
    destruct (IH (S loop) (i + m)) as (tb' & evs2 & Hrec & Hw & Hlast).
    + lia.
    + intros j Hj. specialize (Hnone (S j) ltac:(lia)).
      replace (S loop + j) with (loop + S j) by lia.
      by replace (i + m + j * m) with (i + S j * m) by lia.
    + replace (S loop + n) with (loop + S n) by lia.
      by replace (i + m + n * m) with (i + S n * m) by lia.
    + exists tb', (evs1 ++ evs2). split_and!.
      * cbn [Nat.add traced_loops]. unfold index at 1. rewrite Hsrc.
        cbn [mbind result_bind]. rewrite Hin. cbn [mbind result_bind app].
        rewrite Hrec. cbn [mbind result_bind]. do 4 f_equal. lia.
      * by rewrite written_app, (written_none _ Hun).
      * intros k Hk'. apply elem_of_app. right.
        replace (i + S n * m + k) with (i + m + n * m + k) by lia.
        replace (loop + S n) with (S loop + n) by lia. by apply Hlast.
Qed.

Lemma shard_unfinished cfg i :
  map (fun k => k + i) (seq 0 (d_batch_size cfg)) = seq i (d_batch_size cfg).
Proof.
  replace (seq i (d_batch_size cfg)) with (seq (i + 0) (d_batch_size cfg))
    by (f_equal; lia).
  rewrite <- fmap_add_seq. apply map_ext. intros; lia.
Qed.

Lemma block_decides_sub cfg bp loop i m i' m' b :
  i ≤ i' → i' + m' ≤ i + m →
  block_decides cfg bp loop i m b → block_decides cfg bp loop i' m' b.
Proof.
  intros Hi Hm Hb k Hk.
  destruct (Hb (i' - i + k) ltac:(lia)) as (row & prob & Hrow & Hrest).
  replace (i + (i' - i + k)) with (i' + k) in Hrow by lia. eauto.
Qed.

Lemma block_decides_Forall cfg bp loop b :
  Forall (fun row => ∃ prob, row !! 0 = Some prob ∧ resolves cfg prob loop = b) bp →
  block_decides cfg bp loop 0 (length bp) b.
Proof.
  intros Hall k Hk. destruct (lookup_lt_is_Some_2 bp k Hk) as [row Hrow].
  rewrite Forall_forall in Hall.
  destruct (Hall row (list_elem_of_lookup_2 _ _ _ Hrow)) as (prob & Hprob & Hres).
  exists row, prob. auto.
Qed.

(** Devices none of which carries a row over. *)
Lemma traced_devices_all_pass cfg bp d i tb rows :
  table_rows tb rows → (1 ≤ max_loop cfg)%Z →
  i + d * d_batch_size cfg ≤ rows →
  block_decides cfg bp 0 i (d * d_batch_size cfg) true →
  ∃ tb' evs,
    traced_devices cfg bp d tb i = Ok (tb', i + d * d_batch_size cfg, evs) ∧
    written evs = seq i (d * d_batch_size cfg) ∧
    ∀ k, k < d * d_batch_size cfg → Event (i + k) (i + k) 0 true ∈ evs.
Proof.
  intros Hr Hml. revert i tb Hr.
  induction d as [|d IH]; intros i tb Hr Hrows Hb.
  - exists tb, []. simpl. rewrite Nat.add_0_r. split_and!; [done|done|].
    intros k Hk. lia.
  - pose proof (max_loop_le_keep cfg) as Hkeep.
    destruct (traced_loops_uniform cfg bp 0 (Z.to_nat (max_loop cfg) - 1) 0 i
                (d_batch_size cfg) i tb rows Hr)
      as (tb1 & evs1 & Hsh & Hw1 & Hin1).
    { simpl in Hrows. lia. }
    { lia. }
    { intros j Hj. lia. }
    { simpl. rewrite Nat.add_0_r.
      eapply block_decides_sub; [| |exact Hb]; simpl; lia. }
    replace (0 + 1 + (Z.to_nat (max_loop cfg) - 1))
      with (Z.to_nat (max_loop cfg)) in Hsh by lia.
    simpl in Hsh, Hin1. rewrite Nat.add_0_r in Hsh.
    assert (table_rows tb1 rows) as Hr1.
    { destruct (traced_loops_spec _ _ _ _ _ _ _ _ _ _ _ _ Hr Hsh)
        as (_ & _ & _ & -> & _).
      by apply replay_rows. }
    destruct (IH (i + d_batch_size cfg) tb1 Hr1) as (tb2 & evs2 & Hrec & Hw2 & Hin2).
    { simpl in Hrows. lia. }
    { eapply block_decides_sub; [| |exact Hb]; simpl; lia. }
    exists tb2, (evs1 ++ evs2). split_and!.
    + cbn [traced_devices]. unfold traced_shard. rewrite shard_unfinished, Hsh.
      cbn [mbind result_bind]. rewrite Hrec. cbn [mbind result_bind].
      do 3 f_equal. simpl. lia.
    + rewrite written_app, Hw1, Hw2. simpl. by rewrite seq_app.
    + intros k Hk. apply elem_of_app.
      destruct (decide (k < d_batch_size cfg)) as [Hlt|Hge].
      * left. specialize (Hin1 k Hlt). by rewrite Nat.add_0_r in Hin1.
      * right. specialize (Hin2 (k - d_batch_size cfg) ltac:(simpl in Hk; lia)).
        by replace (i + d_batch_size cfg + (k - d_batch_size cfg))
          with (i + k) in Hin2 by lia.
Qed.

(** Reading both tables of a finished run off events known to be in it. *)
Lemma tables_from_events cfg bp n tb evs (idx : nat → nat) (loop : nat) source :
  traced_devices cfg bp n (zeros cfg) 0 = Ok (tb, length bp, evs) →
  written evs = seq 0 (batch_size cfg) →
  keep_cls cfg !! loop = Some source →
  (∀ k, k < batch_size cfg → Event k (idx k) loop true ∈ evs) →
  sources tb = repeat source (batch_size cfg) ∧
  length (probs tb) = batch_size cfg ∧
  ∀ k, k < batch_size cfg → probs tb !! k = bp !! idx k.
Proof.
  intros Hdev Hw Hsrc Hin. pose proof (zeros_rows cfg) as Hr.
  destruct (traced_devices_spec _ _ _ _ _ _ _ _ _ Hr Hdev) as (_ & Hoks & -> & _).
  destruct (replay_rows cfg bp evs _ _ Hr) as [Hlp Hls].
  assert (NoDup (written evs)) as Hnd by (rewrite Hw; apply NoDup_seq).
  split_and!; [|done|].
  - apply list_eq. intros k.
    destruct (decide (k < batch_size cfg)) as [Hk|Hk].
    + destruct (replay_lookup_nodup cfg bp evs (zeros cfg) _ _ Hr Hoks Hnd
                  (Hin k Hk) eq_refl) as [_ Hs].
      simpl in Hs. by rewrite Hs, Hsrc, lookup_repeat.
    + rewrite !lookup_ge_None_2; [done| |]; rewrite ?repeat_length; lia.
  - intros k Hk.
    by destruct (replay_lookup_nodup cfg bp evs (zeros cfg) _ _ Hr Hoks Hnd
                   (Hin k Hk) eq_refl) as [Hp _].
Qed.

Lemma permutate_of_devices cfg bp tb evs :
  traced_devices cfg bp (n_device cfg) (zeros cfg) 0 = Ok (tb, length bp, evs) →
  GetPredictOutputs._permutate cfg bp = Ok (probs tb, sources tb) ∧
  GetScoreOutputs._permutate cfg bp = Ok (probs tb, sources tb).
Proof.
  intros Hdev.
  assert (GetPredictOutputs._permutate cfg bp = Ok (probs tb, sources tb)) as Hp.
  { rewrite <- permutate_erase. unfold traced_permutate. rewrite Hdev.
    cbn [mbind result_bind]. by rewrite decide_True. }
  split; [done|]. etrans; [apply permutate_agree|done].
Qed.

(** X6.  When the batch size is a multiple of the number of devices,
    [max_loop >= 1], the stream has [batch_size] vectors and each of them is
    accepted at the first iteration (the uncertainty of its first component
    is below the threshold, or [max_loop = 1]), [_permutate] returns the
    stream itself as the probabilities and [keep_cls[0]] as every source,
    for any number of devices and on both paths. *)
Theorem permutate_identity cfg bp :
  n_device cfg * d_batch_size cfg = batch_size cfg →
  (1 ≤ max_loop cfg)%Z →
  length bp = batch_size cfg →
  Forall (fun row => ∃ prob, row !! 0 = Some prob ∧
            (f_lt (GetPredictOutputs._uncertainty cfg prob) (_speed cfg) = true
             ∨ max_loop cfg = 1%Z)) bp →
  ∃ first,
    keep_cls cfg !! 0 = Some first ∧
    GetPredictOutputs._permutate cfg bp
    = Ok (bp, repeat first (batch_size cfg)) ∧
    GetScoreOutputs._permutate cfg bp
    = Ok (bp, repeat first (batch_size cfg)).
Proof.
  intros Hdiv Hml Hlen Hall.
  pose proof (max_loop_le_keep cfg) as Hkeep.
  destruct (lookup_lt_is_Some_2 (keep_cls cfg) 0 ltac:(lia)) as [first Hfirst].
  exists first. split; [done|].
  assert (block_decides cfg bp 0 0 (n_device cfg * d_batch_size cfg) true) as Hb.
  { rewrite Hdiv, <- Hlen. apply block_decides_Forall.
    eapply Forall_impl; [exact Hall|]. simpl.
    intros row (prob & Hprob & Hor). exists prob. split; [done|].
    apply resolves_iff. destruct Hor; [auto|right; lia]. }
  destruct (traced_devices_all_pass cfg bp (n_device cfg) 0 (zeros cfg)
              (batch_size cfg) (zeros_rows cfg) Hml ltac:(lia) Hb)
    as (tb & evs & Hdev & Hw & Hin).
  simpl in Hdev, Hw, Hin. rewrite Hdiv in Hdev, Hw, Hin. rewrite <- Hlen in Hdev.
  destruct (tables_from_events cfg bp _ tb evs (fun k => k) 0 first Hdev Hw Hfirst Hin)
    as (Hs & Hlp & Hp).
  assert (probs tb = bp) as Hpb.
  { apply list_eq. intros k. destruct (decide (k < batch_size cfg)) as [Hk|Hk].
    - by apply Hp.
    - rewrite !lookup_ge_None_2; [done| |]; lia. }
  destruct (permutate_of_devices cfg bp tb evs Hdev) as [H1 H2].
  rewrite Hpb, Hs in H1, H2. done.
Qed.

(** X7.  On one device with [max_loop >= 1], when the stream has
    [max_loop * batch_size] vectors and none of them has a first component
    whose uncertainty is below the threshold, [_permutate] returns the last
    [batch_size] vectors of the stream, those of the last iteration, as the
    probabilities and the head of that iteration, [keep_cls[max_loop - 1]],
    as every source, on both paths. *)
Theorem permutate_last_head cfg bp :
  length (_gpu_ids cfg) ≤ 1 → (1 ≤ max_loop cfg)%Z →
  length bp = Z.to_nat (max_loop cfg) * batch_size cfg →
  Forall (fun row => ∃ prob, row !! 0 = Some prob ∧
            f_lt (GetPredictOutputs._uncertainty cfg prob) (_speed cfg) = false) bp →
  ∃ last,
    keep_cls cfg !! (Z.to_nat (max_loop cfg) - 1) = Some last ∧
    GetPredictOutputs._permutate cfg bp
    = Ok (drop ((Z.to_nat (max_loop cfg) - 1) * batch_size cfg) bp,
          repeat last (batch_size cfg)) ∧
    GetScoreOutputs._permutate cfg bp
    = Ok (drop ((Z.to_nat (max_loop cfg) - 1) * batch_size cfg) bp,
          repeat last (batch_size cfg)).
Proof.
  intros Hg Hml Hlen Hall.
  pose proof (max_loop_le_keep cfg) as Hkeep.
  set (n := Z.to_nat (max_loop cfg) - 1) in *.
  destruct (lookup_lt_is_Some_2 (keep_cls cfg) n ltac:(lia)) as [last Hlast].
  exists last. split; [done|].
  destruct (shard_unfinished_single cfg Hg) as [Hn Hunf].
  assert (∀ loop i, i + batch_size cfg ≤ length bp →
            block_decides cfg bp loop i (batch_size cfg)
              (bool_decide (Z.of_nat loop = (max_loop cfg - 1)%Z))) as Hblock.
  { intros loop i Hi k Hk.
    destruct (lookup_lt_is_Some_2 bp (i + k) ltac:(lia)) as [row Hrow].
    rewrite Forall_forall in Hall.
    destruct (Hall row (list_elem_of_lookup_2 _ _ _ Hrow)) as (prob & Hprob & Hf).
    exists row, prob. split_and!; auto. unfold resolves. by rewrite Hf. }
  destruct (traced_loops_uniform cfg bp n 0 0 0 (batch_size cfg) 0 (zeros cfg)
              (batch_size cfg) (zeros_rows cfg))
    as (tb & evs & Hsh & Hw & Hin).
  { lia. }
  { lia. }
  { intros j Hj. simpl.
    rewrite <- (bool_decide_eq_false_2 (Z.of_nat j = (max_loop cfg - 1)%Z)) by lia.
    apply Hblock. nia. }
  { simpl.
    rewrite <- (bool_decide_eq_true_2 (Z.of_nat n = (max_loop cfg - 1)%Z)) by lia.
    apply Hblock. nia. }
  replace (n + 1 + 0) with (Z.to_nat (max_loop cfg)) in Hsh by lia.
  simpl in Hsh, Hin.
  assert (traced_devices cfg bp (n_device cfg) (zeros cfg) 0
          = Ok (tb, length bp, evs ++ [])) as Hdev.
  { rewrite Hn. cbn [traced_devices]. unfold traced_shard. rewrite Hunf, Hsh.
    cbn [mbind result_bind]. do 3 f_equal. nia. }
  rewrite app_nil_r in Hdev.
  destruct (tables_from_events cfg bp _ tb evs
              (fun k => n * batch_size cfg + k) n last Hdev Hw Hlast Hin)
    as (Hs & Hlp & Hp).
  assert (probs tb = drop (n * batch_size cfg) bp) as Hpb.
  { apply list_eq. intros k. rewrite lookup_drop.
    destruct (decide (k < batch_size cfg)) as [Hk|Hk].
    - by apply Hp.
    - rewrite !lookup_ge_None_2; [done| |]; nia. }
  destruct (permutate_of_devices cfg bp tb evs Hdev) as [H1 H2].
  rewrite Hpb, Hs in H1, H2. done.
Qed.

End MoreCascade.

(** ** The probabilities of the scoring path *)

Section ScoreProbs.
Context {F : Type} `{Float F}.
Implicit Types (cfg : config F) (bp : list (list F)).
Implicit Types (batch_outputs : list (list (list (list F)))).

Lemma concat_join {A} (ls : list (list A)) : concat ls = mjoin ls.
Proof. induction ls as [|l ls IH]; simpl; [done|]. by rewrite IH. Qed.

Lemma length_concat_uniform {A} (n : nat) (ls : list (list A)) :
  Forall (fun l => length l = n) ls → length (concat ls) = length ls * n.
Proof.
  induction 1 as [|l ls Hl _ IH]; simpl; [done|].
  rewrite length_app, IH, Hl. lia.
Qed.

Lemma first_outputs_Ok {A} (outs : list (list A)) (arrays : list A) :
  first_outputs outs = Ok arrays ↔
  outs ≠ [] ∧ Forall2 (fun out a => head out = Some a) outs arrays.
Proof.
  unfold first_outputs. destruct outs as [|out outs].
  { split; [discriminate|]. intros [Hne _]. done. }
  destruct (mapM head (out :: outs)) as [l|] eqn:E.
  - apply mapM_Some in E. split.
    + intros [= <-]. done.
    + intros [_ Hall]. apply mapM_Some in Hall. apply mapM_Some in E.
      rewrite E in Hall. by injection Hall as ->.
  - split; [discriminate|]. intros [_ Hall]. apply mapM_Some in Hall.
    rewrite Hall in E. discriminate.
Qed.

Lemma score_probs_arrays_Ok cfg streams arrays :
  score_probs_arrays cfg streams = Ok arrays ↔
  Forall2 (fun bp pr => ∃ sr, GetScoreOutputs._permutate cfg bp = Ok (pr, sr))
          streams arrays.
Proof.
  revert arrays. induction streams as [|bp rest IH]; intros arrays; simpl.
  - split.
    + intros [= <-]. constructor.
    + intros Hall. by apply Forall2_nil_inv_l in Hall as ->.
  - split.
    + intros Hrun. apply bind_Ok in Hrun as ([pr sr] & Hp & Hrun).
      apply bind_Ok in Hrun as (arrs & Hrest & Hrun). injection Hrun as <-.
      constructor; [eauto|]. by apply IH.
    + intros Hall. apply Forall2_cons_inv_l in Hall
        as (pr & arrs & [sr Hp] & Hrest & ->).
      rewrite Hp. cbn [mbind result_bind]. apply IH in Hrest. by rewrite Hrest.
Qed.

(** What a successful call went through. *)
Lemma score_probs_inv cfg n_inputs batch_outputs rows :
  score_probs cfg n_inputs batch_outputs = Ok rows →
  ∃ arrays,
    rows = take n_inputs (concat arrays) ∧
    Forall (fun pr => length pr = batch_size cfg) arrays ∧
    Forall2 (fun out pr => ∃ bp rest sr,
               out = bp :: rest ∧ GetScoreOutputs._permutate cfg bp = Ok (pr, sr))
            batch_outputs arrays.
Proof.
  intros Hrun. unfold score_probs in Hrun.
  apply bind_Ok in Hrun as (streams & Hfirst & Hrun).
  apply bind_Ok in Hrun as (arrays & Harr & Hrun).
  unfold _transform in Hrun. apply bind_Ok in Hrun as (a0 & _ & Hrun).
  injection Hrun as <-.
  apply first_outputs_Ok in Hfirst as [_ Hfirst].
  apply score_probs_arrays_Ok in Harr.
  assert (Forall2 (fun out pr => ∃ bp rest sr,
             out = bp :: rest ∧ GetScoreOutputs._permutate cfg bp = Ok (pr, sr))
            batch_outputs arrays) as Hall.
  { revert arrays Harr. induction Hfirst as [|out bp outs bps Hhd _ IH];
      intros arrays Harr.
    - apply Forall2_nil_inv_l in Harr as ->. constructor.
    - apply Forall2_cons_inv_l in Harr as (pr & arrs & [sr Hp] & Hrest & ->).
      constructor; [|by apply IH].
      destruct out as [|bp' rest]; [discriminate|]. injection Hhd as ->.
      eauto. }
  exists arrays. split_and!; [done| |done].
  apply Forall_forall. intros pr Hpr.
  apply list_elem_of_lookup in Hpr as [b Hb].
  destruct (Forall2_lookup_r _ _ _ _ _ Hall Hb) as (out & _ & bp & rest & sr & _ & Hp).
  assert (GetPredictOutputs._permutate cfg bp = Ok (pr, sr)) as Hp'
    by (by rewrite <- permutate_agree).
  apply permutate_traced in Hp' as [evs Hp'].
  by destruct (permutate_lengths _ _ _ _ _ Hp').
Qed.

(** X8.  When the probabilities of the scoring path are computed, they are
    the first [n_inputs] rows of the batches' tables laid end to end: there
    are [min n_inputs (batches * batch_size)] of them, and row
    [b * batch_size + r] is row [r] of the table that [_permutate] returns
    for the first array of batch [b]; the rows beyond [n_inputs] are
    dropped. *)
Theorem score_probs_rows cfg n_inputs batch_outputs rows :
  score_probs cfg n_inputs batch_outputs = Ok rows →
  length rows = Nat.min n_inputs (length batch_outputs * batch_size cfg) ∧
  ∀ b r, b < length batch_outputs → r < batch_size cfg →
         b * batch_size cfg + r < n_inputs →
    ∃ bp rest pr sr,
      batch_outputs !! b = Some (bp :: rest) ∧
      GetScoreOutputs._permutate cfg bp = Ok (pr, sr) ∧
      rows !! (b * batch_size cfg + r) = pr !! r.
Proof.
  intros Hrun. apply score_probs_inv in Hrun as (arrays & -> & Hlen & Hall).
  pose proof (Forall2_length _ _ _ Hall) as Hnb.
  split.
  - rewrite length_take, (length_concat_uniform _ _ Hlen), Hnb. done.
  - intros b r Hb Hr Hn.
    destruct (lookup_lt_is_Some_2 batch_outputs b Hb) as [out Hout].
    destruct (Forall2_lookup_l _ _ _ _ _ Hall Hout)
      as (pr & Hpr & bp & rest & sr & -> & Hp).
    exists bp, rest, pr, sr. split_and!; [done|done|].
    rewrite lookup_take_lt by done.
    rewrite Forall_forall in Hlen.
    destruct (lookup_lt_is_Some_2 pr r) as [row Hrow].
    { rewrite (Hlen pr (list_elem_of_lookup_2 _ _ _ Hpr)). done. }
    rewrite Hrow, concat_join.
    apply (join_lookup_Some_same_length' (batch_size cfg));
      [by apply Forall_forall|done|eauto].
Qed.

(** X9.  The probabilities of the scoring path are computed exactly when
    there is at least one batch and every batch has a first array on which
    [_permutate] returns; and when the batches before a batch return and
    every batch has a first array, an exception that [_permutate] raises on
    that batch is the exception of the call. *)
Theorem score_probs_raises cfg n_inputs batch_outputs :
  ((∃ rows, score_probs cfg n_inputs batch_outputs = Ok rows) ↔
   batch_outputs ≠ [] ∧
   Forall (fun out => ∃ bp rest r,
             out = bp :: rest ∧ GetScoreOutputs._permutate cfg bp = Ok r)
          batch_outputs) ∧
  ∀ before bp rest after e,
    batch_outputs = before ++ (bp :: rest) :: after →
    Forall (fun out => out ≠ []) after →
    Forall (fun out => ∃ bp' rest' r,
              out = bp' :: rest' ∧ GetScoreOutputs._permutate cfg bp' = Ok r)
           before →
    GetScoreOutputs._permutate cfg bp = Raise e →
    score_probs cfg n_inputs batch_outputs = Raise e.
Proof.
  split; [split|].
  - intros [rows Hrun]. split.
    + intros ->. discriminate.
    + apply score_probs_inv in Hrun as (arrays & _ & _ & Hall).
      apply Forall_forall. intros out Hout.
      apply list_elem_of_lookup in Hout as [b Hb].
      destruct (Forall2_lookup_l _ _ _ _ _ Hall Hb)
        as (pr & _ & bp & rest & sr & -> & Hp). eauto.
  - intros [Hne Hall].
    assert (∃ streams arrays,
              Forall2 (fun out a => head out = Some a) batch_outputs streams ∧
              score_probs_arrays cfg streams = Ok arrays ∧
              length arrays = length batch_outputs)
      as (streams & arrays & Hst & Harr & Hlen).
    { clear Hne. induction Hall as [|out outs (bp & rest & [pr sr] & -> & Hp) _ IH].
      - exists [], []. split_and!; [constructor|done|done].
      - destruct IH as (streams & arrays & Hst & Harr & Hlen).
        exists (bp :: streams), (pr :: arrays). split_and!.
        + by constructor.
        + simpl. rewrite Hp. cbn [mbind result_bind]. by rewrite Harr.
        + simpl. by rewrite Hlen. }
    unfold score_probs.
    rewrite (proj2 (first_outputs_Ok batch_outputs streams) (conj Hne Hst)).
    cbn [mbind result_bind]. rewrite Harr. cbn [mbind result_bind].
    unfold _transform, index.
    destruct arrays as [|a0 arrays]; [|simpl; eauto].
    destruct batch_outputs; [done|discriminate].
  - intros before bp rest after e -> Hafter Hbefore Hraise.
    assert (∃ streams1 streams2,
              first_outputs (before ++ (bp :: rest) :: after)
              = Ok (streams1 ++ bp :: streams2) ∧
              Forall2 (fun bp' out => ∃ rest', out = bp' :: rest') streams1 before)
      as (s1 & s2 & Hfirst & Hs1).
    { assert (∃ s2, Forall2 (fun out a => head out = Some a) after s2) as [s2 Hs2].
      { clear -Hafter. induction Hafter as [|out outs Hout _ [s2 IH]].
        - exists []. constructor.
        - destruct out as [|a out]; [done|]. exists (a :: s2). by constructor. }
      assert (∃ s1, Forall2 (fun out a => head out = Some a) before s1 ∧
                Forall2 (fun bp' out => ∃ rest', out = bp' :: rest') s1 before)
        as (s1 & Hh1 & Hs1).
      { clear -Hbefore.
        induction Hbefore as [|out outs (bp' & rest' & r & -> & _) _ (s1 & IH1 & IH2)].
        - exists []. split; constructor.
        - exists (bp' :: s1). split; constructor; eauto. }
      exists s1, s2. split; [|done]. apply first_outputs_Ok. split.
      - by destruct before.
      - apply Forall2_app; [done|]. by constructor. }
    unfold score_probs. rewrite Hfirst. cbn [mbind result_bind].
    assert (score_probs_arrays cfg (s1 ++ bp :: s2) = Raise e) as ->; [|done].
    clear Hfirst. revert before Hbefore Hs1.
    induction s1 as [|bp1 s1 IH]; intros before Hbefore Hs1.
    + simpl. by rewrite Hraise.
    + apply Forall2_cons_inv_l in Hs1 as (out & outs & [rest' ->] & Hs1 & ->).
      apply Forall_cons in Hbefore as [(bp' & rest'' & [pr sr] & Heq & Hp) Hbefore].
      injection Heq as <- <-.
      simpl. rewrite Hp. cbn [mbind result_bind].
      by rewrite (IH outs Hbefore Hs1).
Qed.

(** X10.  On one device with [max_loop >= 1], every probability row that
    the scoring path computes is a vector that the session returned in the
    first array of some batch. *)
Theorem score_rows_from_streams cfg n_inputs batch_outputs rows :
  length (_gpu_ids cfg) ≤ 1 → (1 ≤ max_loop cfg)%Z →
  score_probs cfg n_inputs batch_outputs = Ok rows →
  Forall (fun row => ∃ b bp rest,
            batch_outputs !! b = Some (bp :: rest) ∧ row ∈ bp) rows.
Proof.
  intros Hg Hml Hrun. apply score_probs_inv in Hrun as (arrays & -> & Hlen & Hall).
  apply Forall_take. apply Forall_forall. intros row Hrow.
  rewrite concat_join in Hrow. apply list_elem_of_join in Hrow as (pr & Hin & Hpr).
  apply list_elem_of_lookup in Hpr as [b Hb].
  destruct (Forall2_lookup_r _ _ _ _ _ Hall Hb)
    as (out & Hout & bp & rest & sr & -> & Hp).
  exists b, bp, rest. split; [done|].
  assert (GetPredictOutputs._permutate cfg bp = Ok (pr, sr)) as Hp'
    by (by rewrite <- permutate_agree).
  apply permutate_traced in Hp' as [evs Hp'].
  apply list_elem_of_lookup in Hin as [pos Hpos].
  destruct (permutate_lengths _ _ _ _ _ Hp') as [Hlp _].
  destruct (single_device_rows _ _ _ _ _ pos Hg Hml Hp')
    as (ev & _ & _ & _ & Hrow & _).
  { apply lookup_lt_Some in Hpos. lia. }
  rewrite Hpos in Hrow. eapply list_elem_of_lookup_2; eauto.
Qed.

End ScoreProbs.

(** ** The further theorems at concrete inputs *)

Section MoreConcrete.
Local Open Scope R_scope.

Lemma max_loop_one_gpu : (1 ≤ max_loop cfg_one_gpu)%Z.
Proof. unfold max_loop. simpl. lia. Qed.

Lemma permutate_one :
  GetPredictOutputs._permutate cfg_one_gpu (undecided 2)
  = Ok ([[0.5; 0.5]], [2%Z]).
Proof. apply permutate_traced. eexists. apply run_one. Qed.

Lemma score_one :
  score_probs cfg_one_gpu 1 [[undecided 2]] = Ok [[0.5; 0.5]].
Proof.
  assert (first_outputs [[undecided 2]] = Ok [undecided 2]) as Hfirst
    by reflexivity.
  assert (GetScoreOutputs._permutate cfg_one_gpu (undecided 2)
          = Ok ([[0.5; 0.5]], [2%Z])) as Hscore
    by (etrans; [apply permutate_agree|apply permutate_one]).
  unfold score_probs. rewrite Hfirst.
  cbn [mbind result_bind score_probs_arrays]. rewrite Hscore. reflexivity.
Qed.

Lemma Rneb_refl x : Rneb x x = false.
Proof. unfold Rneb. destruct (Req_dec_T x x); congruence. Qed.

Lemma Rneb_true x y : x ≠ y → Rneb x y = true.
Proof. intros Hne. unfold Rneb. destruct (Req_dec_T x y); congruence. Qed.

Lemma settings_repeat_witness :
  set_inference_settings Rneb [0%Z; 1%Z] 0.5
    (Classifier
       (attrs (set_inference_settings Rneb [0%Z; 1%Z] 0.5
                 (Classifier cfg_one_gpu (Some tt))))
       (Some tt))
  = Classifier
      (attrs (set_inference_settings Rneb [0%Z; 1%Z] 0.5
                (Classifier cfg_one_gpu (Some tt))))
      (Some tt).
Proof.
  apply (settings_repeat Rneb [0%Z; 1%Z] 0.5 (Classifier cfg_one_gpu (Some tt))
           (Some tt)).
  - apply Rneb_refl.
  - simpl. intros Hf. rewrite Rneb_true in Hf by lra. discriminate.
Defined.

Lemma permutate_shape_witness :
  length [[0.5; 0.5]] = batch_size cfg_one_gpu.
Proof. apply (permutate_shape cfg_one_gpu (undecided 2) _ _ _ run_one). Defined.

Lemma single_device_outputs_witness :
  Forall (fun row => row ∈ undecided 2) [[0.5; 0.5]].
Proof.
  refine (proj1 (proj2 (proj2 (proj2
            (single_device_outputs cfg_one_gpu (undecided 2) _ _ _
               max_loop_one_gpu permutate_one))))).
  simpl. lia.
Defined.

Lemma earliest_accepting_head_witness :
  ∃ ev' row prob,
    ev' ∈ [Event 0 0 0 false; Event 0 1 1 true] ∧
    ev_pos ev' = 0%nat ∧ ev_loop ev' = 0%nat ∧ (ev_idx ev' < 1)%nat ∧
    ev_resolved ev' = false ∧
    undecided 2 !! ev_idx ev' = Some row ∧ row !! 0%nat = Some prob ∧
    f_lt (GetPredictOutputs._uncertainty cfg_one_gpu prob) (_speed cfg_one_gpu)
    = false ∧
    Z.of_nat 0 ≠ (max_loop cfg_one_gpu - 1)%Z.
Proof.
  apply (earliest_accepting_head cfg_one_gpu (undecided 2) _ _ _
           (Event 0 1 1 true) 0 devices_one).
  - right; left.
  - simpl. lia.
Defined.

Lemma permutate_identity_witness :
  ∃ first,
    keep_cls cfg_last_head_two_gpus !! 0%nat = Some first ∧
    GetPredictOutputs._permutate cfg_last_head_two_gpus (undecided 2)
    = Ok (undecided 2, repeat first (batch_size cfg_last_head_two_gpus)) ∧
    GetScoreOutputs._permutate cfg_last_head_two_gpus (undecided 2)
    = Ok (undecided 2, repeat first (batch_size cfg_last_head_two_gpus)).
Proof.
  apply (permutate_identity cfg_last_head_two_gpus (undecided 2)).
  - reflexivity.
  - unfold max_loop. simpl. lia.
  - reflexivity.
  - repeat constructor; exists 0.5; (split; [reflexivity|right; reflexivity]).
Defined.

Lemma undecided_not_confident :
  f_lt (GetPredictOutputs._uncertainty cfg_one_gpu 0.5) (_speed cfg_one_gpu)
  = false.
Proof.
  rewrite uncertainty_cfg. simpl label_size. rewrite uncertainty_half.
  apply Rltb_false. simpl. lra.
Qed.

Lemma permutate_last_head_witness :
  ∃ last,
    keep_cls cfg_one_gpu !! (Z.to_nat (max_loop cfg_one_gpu) - 1)%nat = Some last ∧
    GetPredictOutputs._permutate cfg_one_gpu (undecided 2)
    = Ok (drop ((Z.to_nat (max_loop cfg_one_gpu) - 1) * batch_size cfg_one_gpu)
               (undecided 2),
          repeat last (batch_size cfg_one_gpu)) ∧
    GetScoreOutputs._permutate cfg_one_gpu (undecided 2)
    = Ok (drop ((Z.to_nat (max_loop cfg_one_gpu) - 1) * batch_size cfg_one_gpu)
               (undecided 2),
          repeat last (batch_size cfg_one_gpu)).
Proof.
  apply (permutate_last_head cfg_one_gpu (undecided 2)).
  - simpl. lia.
  - apply max_loop_one_gpu.
  - reflexivity.
  - repeat constructor; exists 0.5;
      (split; [reflexivity|apply undecided_not_confident]).
Defined.

Lemma score_probs_rows_witness :
  length [[0.5; 0.5]]
  = Nat.min 1 (length [[undecided 2]] * batch_size cfg_one_gpu).
Proof. apply (score_probs_rows cfg_one_gpu 1 [[undecided 2]] _ score_one). Defined.

Lemma score_rows_from_streams_witness :
  Forall (fun row => ∃ b bp rest,
            [[undecided 2]] !! b = Some (bp :: rest) ∧ row ∈ bp) [[0.5; 0.5]].
Proof.
  apply (score_rows_from_streams cfg_one_gpu 1 [[undecided 2]] _).
  - simpl. lia.
  - apply max_loop_one_gpu.
  - apply score_one.
Defined.

End MoreConcrete.

(** ** Shards, the order of the stream, and the heads that get an iteration *)

Section Shards.
Context {F : Type} `{Float F}.
Implicit Types (cfg : config F) (bp : list (list F)) (tb : tables F).
Implicit Types (ev : event) (evs : list event).

(** X12.  On one device and with [max_loop >= 1], when [_permutate]
    returns, the rows written are the rows [0 .. batch_size-1], each written
    by exactly one visit, and each holds the vector that visit consumed and
    the head of its iteration. *)
Theorem single_device_coverage cfg bp pr sr evs :
  length (_gpu_ids cfg) ≤ 1 → (1 ≤ max_loop cfg)%Z →
  traced_permutate cfg bp = Ok (pr, sr, evs) →
  written evs ≡ₚ seq 0 (batch_size cfg) ∧
  NoDup (written evs) ∧
  ∀ ev, ev ∈ evs → ev_resolved ev = true →
    pr !! ev_pos ev = bp !! ev_idx ev ∧
    sr !! ev_pos ev = keep_cls cfg !! ev_loop ev.
Proof.
  intros Hg Hml Hrun.
  destruct (coverage_single_device _ _ _ _ _ Hg Hml Hrun) as [Hperm Hrows].
  split_and!; [done| |done]. rewrite Hperm. apply NoDup_seq.
Qed.

(** X13.  For any number of devices, in tables of [batch_size] rows and
    with [max_loop >= 1], a shard that runs to its end writes the
    [d_batch_size] rows that start at the stream position [i] where the
    shard began, each exactly once, all of them inside the tables; and each
    of these rows then holds the vector its resolving visit consumed and the
    head of that iteration. *)
Theorem shard_rows cfg bp tb i tb' i' nu' evs :
  table_rows tb (batch_size cfg) → (1 ≤ max_loop cfg)%Z →
  traced_shard cfg bp tb i = Ok (tb', i', nu', evs) →
  written evs ≡ₚ seq i (d_batch_size cfg) ∧
  NoDup (written evs) ∧
  (0 < d_batch_size cfg → i + d_batch_size cfg ≤ batch_size cfg) ∧
  ∀ ev, ev ∈ evs → ev_resolved ev = true →
    probs tb' !! ev_pos ev = bp !! ev_idx ev ∧
    sources tb' !! ev_pos ev = keep_cls cfg !! ev_loop ev.
Proof.
  intros Hr Hml Hsh. unfold traced_shard in Hsh. rewrite shard_unfinished in Hsh.
  assert (nu' = []) as ->.
  { eapply (traced_loops_last _ _ _ _ _ _ _ _ _ _ _ _ Hr); [| |exact Hsh]; lia. }
  destruct (traced_loops_spec _ _ _ _ _ _ _ _ _ _ _ _ Hr Hsh)
    as (_ & _ & Hoks & -> & _ & Hperm & _).
  rewrite app_nil_r in Hperm.
  assert (NoDup (written evs)) as Hnd by (rewrite Hperm; apply NoDup_seq).
  split_and!; [done|done| |].
  - intros Hdb.
    assert (i + d_batch_size cfg - 1 ∈ written evs) as Hw
      by (rewrite Hperm; apply elem_of_seq; lia).
    apply written_elem in Hw as (ev & Hev & Hres & Hpos).
    rewrite Forall_forall in Hoks.
    destruct (Hoks ev Hev) as (_ & _ & Hlt). specialize (Hlt Hres). lia.
  - intros ev Hev Hres. eapply replay_lookup_nodup; eauto.
Qed.

Lemma filter_all {A} (P : A → Prop) `{∀ x, Decision (P x)} (l : list A) :
  Forall P l → filter P l = l.
Proof.
  induction 1 as [|x l Hx _ IH]; [done|].
  by rewrite filter_cons, decide_True, IH.
Qed.

Lemma filter_none {A} (P : A → Prop) `{∀ x, Decision (P x)} (l : list A) :
  Forall (fun x => ¬ P x) l → filter P l = [].
Proof.
  induction 1 as [|x l Hx _ IH]; [done|].
  by rewrite filter_cons, decide_False, IH.
Qed.

Lemma sorted_app {A} (R : relation A) (l1 l2 : list A) :
  (∀ x1 x2, x1 ∈ l1 → x2 ∈ l2 → R x1 x2) →
  StronglySorted R l1 → StronglySorted R l2 → StronglySorted R (l1 ++ l2).
Proof.
  intros Hcross Hs1 Hs2. induction Hs1 as [|x l1 Hs1 IH Hx]; [done|].
  simpl. constructor.
  - apply IH. intros x1 x2 H1 H2. apply Hcross; [by right|done].
  - apply Forall_app. split; [done|].
    apply Forall_forall. intros y Hy. apply Hcross; [left|done].
Qed.

Lemma carried_sorted evs :
  StronglySorted lt (map ev_pos evs) → StronglySorted lt (carried evs).
Proof.
  unfold carried. induction evs as [|ev evs IH]; intros Hs; [constructor|].
  simpl in Hs. apply StronglySorted_inv in Hs as [Hs Hall].
  rewrite filter_cons. destruct (decide _); [|by apply IH].
  simpl. constructor; [by apply IH|].
  rewrite Forall_forall in *. intros pos Hpos.
  apply list_elem_of_fmap in Hpos as (ev' & -> & He).
  apply list_elem_of_filter in He as [_ He].
  apply Hall, list_elem_of_fmap. eauto.
Qed.

Lemma traced_loops_order cfg bp n loop tb i unfinished st' evs rows :
  table_rows tb rows → StronglySorted lt unfinished →
  traced_loops cfg bp n loop tb i unfinished = Ok (st', evs) →
  StronglySorted le (map ev_loop evs) ∧
  ∀ l, StronglySorted lt (map ev_pos (filter (fun ev => ev_loop ev = l) evs)).
Proof.
  revert loop tb i unfinished st' evs.
  induction n as [|n IH]; intros loop tb i unfinished st' evs Hr Hsort Hl;
    simpl in Hl.
  - injection Hl as <- <-. split; [constructor|]. intros l. constructor.
  - apply bind_Ok in Hl as (source & Hsrc & Hl). apply index_Ok in Hsrc.
    apply bind_Ok in Hl as ([[[tb1 i1] nu1] evs1] & Hin & Hl).
    apply bind_Ok in Hl as ([[[tb2 i2] nu2] evs2] & Hrec & Hl).
    injection Hl as <- <-.
    destruct (traced_inner_spec _ _ _ _ _ _ _ _ _ _ _ _ _ Hsrc Hr Hin)
      as (Hps & _ & Hlps & _ & -> & -> & ->).
    assert (table_rows (replay cfg bp evs1 tb) rows) as Hr1
      by (by apply replay_rows).
    destruct (traced_loops_spec _ _ _ _ _ _ _ _ _ _ _ _ Hr1 Hrec)
      as (_ & Hlps2 & _).
    simpl in Hrec.
    destruct (IH _ _ _ _ _ _ Hr1 ltac:(apply carried_sorted; by rewrite Hps) Hrec)
      as [Hloops2 Hpos2].
    rewrite Forall_forall in Hlps, Hlps2.
    split.
    + rewrite map_app. apply sorted_app; [| |done].
      * intros l1 l2 H1 H2.
        apply list_elem_of_fmap in H1 as (e1 & -> & H1).
        apply list_elem_of_fmap in H2 as (e2 & -> & H2).
        rewrite (Hlps e1 H1). specialize (Hlps2 e2 H2). simpl in Hlps2. lia.
      * clear -Hlps. induction evs1 as [|e evs1 IHe]; [constructor|].
        simpl. constructor.
        -- apply IHe. intros x Hx. apply Hlps. by right.
        -- apply Forall_forall. intros l Hl.
           apply list_elem_of_fmap in Hl as (e' & -> & He').
           rewrite (Hlps e ltac:(left)), (Hlps e' ltac:(by right)). lia.
    + intros l. rewrite filter_app, map_app.
      destruct (decide (l = loop)) as [->|Hne].
      * rewrite (filter_none _ evs2), app_nil_r.
        -- rewrite filter_all by (by apply Forall_forall). by rewrite Hps.
        -- apply Forall_forall. intros e He. specialize (Hlps2 e He).
           simpl in Hlps2. lia.
      * rewrite (filter_none _ evs1); [apply Hpos2|].
        apply Forall_forall. intros e He. rewrite (Hlps e He). lia.
Qed.

(** X14.  The order of the flat stream.  A shard that runs to its end
    consumes consecutive vectors of the stream, iteration after iteration,
    and inside an iteration by increasing row. *)
Theorem shard_stream_order cfg bp tb i tb' i' nu' evs :
  table_rows tb (batch_size cfg) →
  traced_shard cfg bp tb i = Ok (tb', i', nu', evs) →
  map ev_idx evs = seq i (length evs) ∧
  StronglySorted le (map ev_loop evs) ∧
  ∀ l, StronglySorted lt (map ev_pos (filter (fun ev => ev_loop ev = l) evs)).
Proof.
  intros Hr Hsh. unfold traced_shard in Hsh. rewrite shard_unfinished in Hsh.
  destruct (traced_loops_spec _ _ _ _ _ _ _ _ _ _ _ _ Hr Hsh) as (Hids & _).
  split; [done|].
  eapply traced_loops_order; [exact Hr| |exact Hsh].
  clear. generalize (d_batch_size cfg). intros m. revert i.
  induction m as [|m IH]; intros i; simpl; constructor; [apply IH|].
  apply Forall_forall. intros k Hk. apply elem_of_seq in Hk. lia.
Qed.

End Shards.

Section KeptHeads.
Context {F : Type}.
Implicit Types (cfg : config F).

(** X15.  Whatever the ignore list holds (repeated or foreign entries
    included), [max_loop] does not exceed the number of kept heads, so
    [keep_cls[loop]] never raises inside the loop and names a head of
    [0..L] outside the ignore list; and every kept head gets its iteration
    exactly when the ignore list is free of repetitions and lies in
    [0..L]. *)
Theorem keep_cls_index_total cfg :
  (max_loop cfg ≤ Z.of_nat (length (keep_cls cfg)))%Z ∧
  (∀ loop, (Z.of_nat loop < max_loop cfg)%Z →
     ∃ source, index (keep_cls cfg) loop = Ok source ∧
               (0 ≤ source ≤ Z.of_nat (num_hidden_layers cfg))%Z ∧
               source ∉ _ignore_cls cfg) ∧
  (max_loop cfg = Z.of_nat (length (keep_cls cfg)) ↔
   NoDup (_ignore_cls cfg) ∧
   ∀ h, h ∈ _ignore_cls cfg → (0 ≤ h ≤ Z.of_nat (num_hidden_layers cfg))%Z).
Proof.
  pose proof (max_loop_le_keep cfg) as Hle. split_and!; [done| |].
  - intros loop Hloop.
    destruct (lookup_lt_is_Some_2 (keep_cls cfg) loop ltac:(lia)) as [source Hsrc].
    exists source. split; [by apply index_Ok|].
    by apply keep_cls_elem, (list_elem_of_lookup_2 _ loop).
  - split; [|intros [Hnd Hsub]; by apply max_loop_eq_keep].
    intros Heq. unfold max_loop, keep_cls in Heq.
    set (heads := map Z.of_nat (seq 0 (num_hidden_layers cfg + 1))) in *.
    pose proof (filter_app_complement (fun h => h ∉ _ignore_cls cfg) heads) as Hp.
    apply Permutation_length in Hp. rewrite length_app in Hp.
    assert (length heads = num_hidden_layers cfg + 1) as Hh
      by (unfold heads; by rewrite length_map, length_seq).
    set (ignored := filter (fun h => ¬ (h ∉ _ignore_cls cfg)) heads) in *.
    assert (ignored ⊆+ _ignore_cls cfg) as Hsub.
    { apply NoDup_submseteq; [apply NoDup_filter, heads_nodup|].
      intros h Hin. apply list_elem_of_filter in Hin as [Hin _].
      destruct (decide (h ∈ _ignore_cls cfg)); tauto. }
    assert (ignored ≡ₚ _ignore_cls cfg) as Hperm
      by (apply submseteq_length_Permutation; [done|lia]).
    split.
    + rewrite <- Hperm. apply NoDup_filter, heads_nodup.
    + intros h Hin. rewrite <- Hperm in Hin.
      apply list_elem_of_filter in Hin as [_ Hin]. by apply heads_elem.
Qed.

End KeptHeads.

Section ShardsConcrete.
Local Open Scope R_scope.

Lemma single_device_coverage_witness :
  NoDup (written [Event 0 0 0 false; Event 0 1 1 true]).
Proof.
  refine (proj1 (proj2
            (single_device_coverage cfg_one_gpu (undecided 2) _ _ _ _
               max_loop_one_gpu run_one))).
  simpl. lia.
Defined.

Lemma shard_rows_witness :
  NoDup (written [Event 0 0 0 false; Event 0 1 1 true]).
Proof.
  refine (proj1 (proj2
            (shard_rows cfg_one_gpu (undecided 2) (zeros cfg_one_gpu) 0 _ _ _ _
               (zeros_rows cfg_one_gpu) max_loop_one_gpu shard_one))).
Defined.

Lemma shard_stream_order_witness :
  StronglySorted le (map ev_loop [Event 0 0 0 false; Event 0 1 1 true]).
Proof.
  refine (proj1 (proj2
            (shard_stream_order cfg_one_gpu (undecided 2) (zeros cfg_one_gpu) 0
               _ _ _ _ (zeros_rows cfg_one_gpu) shard_one))).
Defined.

End ShardsConcrete.
